(** * Virtual-filesystem path helpers of [utils.py]

    A shallow embedding of [vfs_construct_path] and [vfs_normpath]
    (utils.py, lines 351-390) together with the properties the
    specification states about them.

    Python byte strings are modelled as [string] (a sequence of 8-bit
    characters).  [vfs_normpath] picks its two literals [slash] and [dot]
    with the type of its argument, so the algorithm is the same on [str]
    and on [unicode]; the development follows the [str] case, and module
    [Py2] has the two functions on both types, with the exceptions they
    can raise. *)

From Stdlib Require Import String Ascii List Bool Arith Lia.
Import ListNotations.
Open Scope string_scope.

(** ** Python primitives used by the two functions *)

(** [s.startswith(pre)] *)
Definition startswith (s pre : string) : bool := String.prefix pre s.

(** [s.endswith(suf)]: some tail of [s] is [suf]. *)
Fixpoint endswith (s suf : string) : bool :=
  if s =? suf then true
  else match s with
       | EmptyString => false
       | String _ s' => endswith s' suf
       end.

(** [s.split(sep)] for a one-character separator: never returns the empty
    list, [''.split('/') == ['']]. *)
Fixpoint split_on (sep : ascii) (s : string) : list string :=
  match s with
  | EmptyString => [EmptyString]
  | String c s' =>
      if Ascii.eqb c sep then EmptyString :: split_on sep s'
      else match split_on sep s' with
           | h :: t => String c h :: t
           | [] => [String c EmptyString]
           end
  end.

(** [s * n] *)
Fixpoint str_mul (s : string) (n : nat) : string :=
  match n with
  | O => EmptyString
  | S n' => s ++ str_mul s n'
  end.

(** Truth value of a list: [if new_comps:] *)
Definition truthy {A : Type} (l : list A) : bool :=
  match l with
  | [] => false
  | _ :: _ => true
  end.

(** [x or y] on strings. *)
Definition str_or (x y : string) : string :=
  if x =? "" then y else x.

(** ** [vfs_construct_path] *)

(** Body of the [for b in p] loop: the new value of [path]. *)
Definition construct_step (path b : string) : string :=
  if startswith b "/" then b
  else if (path =? "") || endswith path "/" then path ++ b
  else path ++ ("/" ++ b).

Fixpoint construct_loop (path : string) (p : list string) : string :=
  match p with
  | [] => path
  | b :: p' => construct_loop (construct_step path b) p'
  end.

Definition vfs_construct_path (a : string) (p : list string) : string :=
  construct_loop a p.

(** ** [vfs_normpath] *)

Definition slash : string := "/".
Definition dot : string := ".".

(** The value of [initial_slashes] after lines 370-375: [False] and [True]
    are the integers 0 and 1, and the special case assigns 2. *)
Definition initial_slashes_of (path : string) : nat :=
  let initial_slashes := if startswith path "/" then 1 else 0 in
  if negb (initial_slashes =? 0)%nat
     && startswith path "//" && negb (startswith path "///")
  then 2
  else initial_slashes.

(** Body of the [for comp in comps] loop: the new value of [new_comps].
    [new_comps[-1]] is only evaluated behind the guard [new_comps and],
    where it is [last new_comps _]; [Py2.norm_step] below keeps the
    raising primitives. *)
Definition norm_step (initial_slashes : nat) (new_comps : list string)
    (comp : string) : list string :=
  if (comp =? "") || (comp =? ".") then new_comps
  else if negb (comp =? "..")
          || ((initial_slashes =? 0)%nat && negb (truthy new_comps))
          || (truthy new_comps && (last new_comps "" =? ".."))
       then new_comps ++ [comp]
  else if truthy new_comps then removelast new_comps
  else new_comps.

(** The list [new_comps] when the loop is over. *)
Definition new_comps_of (path : string) : list string :=
  fold_left (norm_step (initial_slashes_of path)) (split_on "/" path) [].

(** The variable [path] just before the final [return path or dot]. *)
Definition restored (path : string) : string :=
  let initial_slashes := initial_slashes_of path in
  let path' := String.concat slash (new_comps_of path) in
  if negb (initial_slashes =? 0)%nat
  then str_mul slash initial_slashes ++ path'
  else path'.

Definition vfs_normpath (path : string) : string :=
  if path =? "" then dot
  else str_or (restored path) dot.

(** ** The specification's wording, for comparison with the code *)
Module Spec.

(** "[b] starts with [/]" *)
Definition starts_with_slash (b : string) : bool :=
  match b with
  | String c _ => Ascii.eqb c "/"
  | EmptyString => false
  end.

(** "[path] already ends with [/]" *)
Fixpoint ends_with_slash (path : string) : bool :=
  match path with
  | EmptyString => false
  | String c EmptyString => Ascii.eqb c "/"
  | String _ rest => ends_with_slash rest
  end.

(** One round of PathJoiner's "for each segment [b] in order". *)
Definition join_step (path b : string) : string :=
  if starts_with_slash b then b
  else if (String.length path =? 0)%nat || ends_with_slash path
       then path ++ b
  else (path ++ "/") ++ b.

Definition join (base : string) (segments : list string) : string :=
  fold_left join_step segments base.

(** The last entry of the output list, when there is one. *)
Definition last_entry (out : list string) : option string :=
  match rev out with
  | [] => None
  | x :: _ => Some x
  end.

Definition last_is_dotdot (out : list string) : bool :=
  match last_entry out with
  | Some x => x =? ".."
  | None => false
  end.

(** Step 4 of PathNormalizer for a segment equal to [..]. *)
Definition dotdot_rule (leading_slash : bool) (out : list string)
  : list string :=
  if negb (length out =? 0)%nat && negb (last_is_dotdot out)
  then rev (tl (rev out))
  else if (negb leading_slash && (length out =? 0)%nat)
          || last_is_dotdot out
       then out ++ [".."]
  else out.

End Spec.

(** Number of copies of [c] at the front of [s]. *)
Fixpoint count_leading (c : ascii) (s : string) : nat :=
  match s with
  | EmptyString => 0
  | String a s' => if Ascii.eqb a c then S (count_leading c s') else 0
  end.

(** Whether the character [c] occurs in [s]. *)
Fixpoint contains_char (c : ascii) (s : string) : bool :=
  match s with
  | EmptyString => false
  | String a s' => Ascii.eqb a c || contains_char c s'
  end.

(** A component that the loop keeps: not empty, not [.], without [/]. *)
Definition segment (c : string) : Prop :=
  c <> "" /\ c <> "." /\ contains_char "/" c = false.

(** A kept component other than [..]. *)
Definition plain (c : string) : Prop :=
  segment c /\ c <> "..".

(** Shape of [new_comps] at every point of the loop: a run of [..], which
    is empty for an absolute path, followed by plain components. *)
Definition normal (initial_slashes : nat) (l : list string) : Prop :=
  exists n rest,
    l = (repeat ".." n ++ rest)%list /\ Forall plain rest /\
    (initial_slashes <> 0 -> n = 0).

(** ** The two string types of Python 2

    The two functions accept [str] and [unicode] values.  A string is its
    type and its code units: bytes for [str], code points for [unicode].
    When a [str] meets a [unicode] in a concatenation, Python 2 decodes the
    [str] with the ascii codec, which raises [UnicodeDecodeError] on a byte
    above 127.  The literals of the source are ASCII [str] values, so
    comparing with them, [startswith], [endswith] and [split] never
    raise.  [l[-1]] and [l.pop()] raise [IndexError] on the empty list. *)

From Stdlib Require Import NArith.

Module Py2.

Inductive exn : Type :=
| UnicodeDecodeError
| IndexError.

Definition result (A : Type) : Type := (exn + A)%type.

Definition ret {A : Type} (a : A) : result A := inr a.
Definition raise {A : Type} (e : exn) : result A := inl e.
Definition bind {A B : Type} (m : result A) (k : A -> result B)
  : result B :=
  match m with
  | inl e => inl e
  | inr a => k a
  end.

Notation "x <- m ;; k" := (bind m (fun x => k))
  (at level 61, m at next level, right associativity).

Inductive kind : Type :=
| Str
| Unicode.

Record pystr : Type := mk { kind_of : kind; units : list N }.

(** The code units of a byte string. *)
Definition code (s : string) : list N :=
  map N_of_ascii (list_ascii_of_string s).

(** A [str] value, such as a literal of the source. *)
Definition lit (s : string) : pystr := mk Str (code s).

Definition all_ascii (u : list N) : bool :=
  forallb (fun c => (c <? 128)%N) u.

(** The implicit conversion of a [str] to [unicode]. *)
Definition decode_ascii (u : list N) : result (list N) :=
  if all_ascii u then ret u else raise UnicodeDecodeError.

(** [x + y] *)
Definition add (x y : pystr) : result pystr :=
  match kind_of x, kind_of y with
  | Str, Str => ret (mk Str (units x ++ units y))
  | Unicode, Unicode => ret (mk Unicode (units x ++ units y))
  | Str, Unicode =>
      ux <- decode_ascii (units x) ;; ret (mk Unicode (ux ++ units y))
  | Unicode, Str =>
      uy <- decode_ascii (units y) ;; ret (mk Unicode (units x ++ uy))
  end.

(** [==] on code units. *)
Fixpoint ueqb (a b : list N) : bool :=
  match a, b with
  | [], [] => true
  | x :: a', y :: b' => N.eqb x y && ueqb a' b'
  | _, _ => false
  end.

Fixpoint ustartswith (s pre : list N) : bool :=
  match pre with
  | [] => true
  | p :: pre' =>
      match s with
      | [] => false
      | c :: s' => N.eqb p c && ustartswith s' pre'
      end
  end.

Fixpoint uendswith (s suf : list N) : bool :=
  if ueqb s suf then true
  else match s with
       | [] => false
       | _ :: s' => uendswith s' suf
       end.

Fixpoint usplit (sep : N) (s : list N) : list (list N) :=
  match s with
  | [] => [[]]
  | c :: s' =>
      if N.eqb c sep then [] :: usplit sep s'
      else match usplit sep s' with
           | h :: t => (c :: h) :: t
           | [] => [[c]]
           end
  end.

Fixpoint ujoin (sep : list N) (l : list (list N)) : list N :=
  match l with
  | [] => []
  | [x] => x
  | x :: xs => x ++ sep ++ ujoin sep xs
  end.

Fixpoint umul (s : list N) (n : nat) : list N :=
  match n with
  | O => []
  | S n' => s ++ umul s n'
  end.

(** *** [vfs_construct_path] on typed strings *)

Definition construct_step (path b : pystr) : result pystr :=
  if ustartswith (units b) (code "/") then ret b
  else if ueqb (units path) (code "") || uendswith (units path) (code "/")
       then add path b
  else (t <- add (lit "/") b ;; add path t).

Fixpoint construct_loop (path : pystr) (p : list pystr) : result pystr :=
  match p with
  | [] => ret path
  | b :: p' => path' <- construct_step path b ;; construct_loop path' p'
  end.

Definition vfs_construct_path (a : pystr) (p : list pystr)
  : result pystr :=
  construct_loop a p.

(** *** [vfs_normpath] on typed strings *)

Definition and_then (b : bool) (m : result bool) : result bool :=
  if b then m else ret false.
Definition or_else (b : bool) (m : result bool) : result bool :=
  if b then ret true else m.

(** [l[-1]] *)
Definition getitem_last (l : list (list N)) : result (list N) :=
  match l with
  | [] => raise IndexError
  | _ :: _ => ret (last l [])
  end.

(** [l.pop()]: the list that remains. *)
Definition pop (l : list (list N)) : result (list (list N)) :=
  match l with
  | [] => raise IndexError
  | _ :: _ => ret (removelast l)
  end.

Definition norm_step (initial_slashes : nat) (new_comps : list (list N))
    (comp : list N) : result (list (list N)) :=
  if ueqb comp (code "") || ueqb comp (code ".") then ret new_comps
  else
    c <- or_else (negb (ueqb comp (code "..")))
           (or_else ((initial_slashes =? 0)%nat && negb (truthy new_comps))
              (and_then (truthy new_comps)
                 (x <- getitem_last new_comps ;;
                  ret (ueqb x (code "..")))));;
    if c then ret (new_comps ++ [comp])%list
    else if truthy new_comps then pop new_comps
    else ret new_comps.

Fixpoint norm_loop (initial_slashes : nat) (new_comps : list (list N))
    (comps : list (list N)) : result (list (list N)) :=
  match comps with
  | [] => ret new_comps
  | comp :: comps' =>
      nc <- norm_step initial_slashes new_comps comp ;;
      norm_loop initial_slashes nc comps'
  end.

Definition initial_slashes_of (path : list N) : nat :=
  let initial_slashes := if ustartswith path (code "/") then 1 else 0 in
  if negb (initial_slashes =? 0)%nat
     && ustartswith path (code "//") && negb (ustartswith path (code "///"))
  then 2
  else initial_slashes.

(** [slash] and [dot] have the type of [path], and so has the result. *)
Definition vfs_normpath (path : pystr) : result pystr :=
  let slash := mk (kind_of path) (code "/") in
  let dot := mk (kind_of path) (code ".") in
  if ueqb (units path) (code "") then ret dot
  else
    let initial_slashes := initial_slashes_of (units path) in
    let comps := usplit (N_of_ascii "/") (units path) in
    new_comps <- norm_loop initial_slashes [] comps ;;
    let path' := ujoin (units slash) new_comps in
    let path' := if negb (initial_slashes =? 0)%nat
                 then (umul (units slash) initial_slashes ++ path')%list
                 else path' in
    ret (if ueqb path' [] then dot else mk (kind_of path) path').

(** The arguments for which no concatenation of [vfs_construct_path] can
    fail: strings of one type, or strings whose bytes are all ASCII. *)
Definition kind_eqb (k1 k2 : kind) : bool :=
  match k1, k2 with
  | Str, Str | Unicode, Unicode => true
  | _, _ => false
  end.

Definition of_kind (k : kind) (x : pystr) : bool := kind_eqb (kind_of x) k.

Definition ascii_or_unicode (x : pystr) : bool :=
  match kind_of x with
  | Unicode => true
  | Str => all_ascii (units x)
  end.

End Py2.

(** * Other functions of [utils.py]

    The rest of the file models further functions of the module, with
    their surroundings (archive, directory tree, random generator, base
    JSON encoder) taken as arguments. *)

(** The value returned by [vfs_normpath] in terms of the two things the
    loop computes: [initial_slashes] and [new_comps]. *)
Definition render (initial_slashes : nat) (new_comps : list string)
  : string :=
  str_or (str_mul slash initial_slashes ++ String.concat slash new_comps) dot.

(** Number of characters that joining [comps] with a one-character
    separator takes, counting one separator after every component. *)
Definition comps_weight (comps : list string) : nat :=
  list_sum (map (fun c => S (String.length c)) comps).

(** The same over the components that are not empty. *)
Definition kept_weight (comps : list string) : nat :=
  list_sum (map (fun c => if c =? "" then 0 else S (String.length c)) comps).

(** ** [JSONEncoderForHTML] (utils.py, lines 295-306) *)

(** [s.replace(old, new)] for a one-character [old]: every occurrence is
    replaced, from left to right. *)
Fixpoint replace_char (old : ascii) (new : string) (s : string) : string :=
  match s with
  | EmptyString => EmptyString
  | String c s' =>
      if Ascii.eqb c old then new ++ replace_char old new s'
      else String c (replace_char old new s')
  end.

Module JSONEncoderForHTML.

(** What [iterencode] yields for one chunk of the base encoder. *)
Definition escape (chunk : string) : string :=
  replace_char ">" "\u003e"
    (replace_char "<" "\u003c"
       (replace_char "&" "\u0026" chunk)).

(** [iterencode]: [chunks] is what [json.JSONEncoder.iterencode] yields for
    the object. *)
Definition iterencode (chunks : list string) : list string :=
  map escape chunks.

(** [encode]: the chunks of [iterencode] joined with the empty string. *)
Definition encode (chunks : list string) : string :=
  String.concat "" (iterencode chunks).

End JSONEncoderForHTML.

(** ** [get_comma_sep_string_from_list] (utils.py, lines 171-180)

    [items[:-1]] is [removelast items], [items[-1]] is [last items _] and
    ['%s and %s' % (a, b)] puts [" and "] between the two strings. *)
Definition get_comma_sep_string_from_list (items : list string) : string :=
  if negb (truthy items) then ""
  else if (length items =? 1)%nat then nth 0 items ""
  else String.concat ", " (removelast items) ++ " and " ++ last items "".

(** ** [recursively_remove_key] (utils.py, lines 204-213) *)

(** A Python value as far as the function looks into it: a list, a dict
    (the list of its items, keys being strings) or anything else.  The
    function works in place and returns nothing; the model returns the
    value the argument holds after the call.  Values are trees: no object
    contains itself. *)
#[warnings="-register-all"]
Inductive pyobj : Type :=
| PyList (items : list pyobj)
| PyDict (items : list (string * pyobj))
| PyOther (repr : string).

(** In a dict the item under [key_to_remove] is deleted first, then the
    function is applied to the value of every item that is left. *)
Fixpoint recursively_remove_key (obj : pyobj) (key_to_remove : string)
  : pyobj :=
  match obj with
  | PyList items =>
      PyList (map (fun item => recursively_remove_key item key_to_remove)
                items)
  | PyDict items =>
      PyDict
        ((fix over_items (l : list (string * pyobj))
            : list (string * pyobj) :=
            match l with
            | [] => []
            | (key, value) :: l' =>
                if key =? key_to_remove then over_items l'
                else (key, recursively_remove_key value key_to_remove)
                       :: over_items l'
            end) items)
  | PyOther r => PyOther r
  end.

(** Whether some dict inside [obj], reached through lists and dict values,
    has the key [k]. *)
Fixpoint has_key (k : string) (obj : pyobj) : bool :=
  match obj with
  | PyList items => existsb (has_key k) items
  | PyDict items =>
      existsb (fun kv => (fst kv =? k) || has_key k (snd kv)) items
  | PyOther _ => false
  end.

(** ** [get_exploration_components_from_zip] (utils.py, lines 127-168)

    The argument is given by what the [zipfile] library makes of the bytes:
    [zipfile.ZipFile(o, 'r')] either raises or gives an archive, which is
    the names of [zf.namelist()] in order and the function [zf.read], which
    either raises or gives the bytes of a member. *)
Module ZipComponents.

Inductive exn : Type :=
| TypeError
| Exception (msg : string)
| ZipError (what : string).

Definition result (A : Type) : Type := (exn + A)%type.

(** [inl what]: the library raises; [inr v]: it returns [v]. *)
Definition library (A : Type) : Type := (string + A)%type.

Definition lift {A : Type} (r : library A) : result A :=
  match r with
  | inl what => inl (ZipError what)
  | inr v => inr v
  end.

Definition archive : Type :=
  (list string * (string -> library string))%type.

(** The two variables of the loop: [yaml_content], [None] until it is
    assigned, and [assets_list]. *)
Definition loop_state : Type :=
  (option string * list (string * string))%type.

(** Body of [for filepath in zf.namelist()].  In the first branch
    [assets_list.append] is called with two arguments, the joined path and
    the bytes [zf.read] returns: once both are evaluated, [list.append],
    which takes exactly one argument, raises [TypeError]. *)
Definition loop_body (read : string -> library string) (st : loop_state)
    (filepath : string) : result loop_state :=
  let '(yaml_content, assets_list) := st in
  if startswith filepath "assets/" then
    match lift (read filepath) with
    | inl e => inl e
    | inr _ => inl TypeError
    end
  else
    match yaml_content with
    | Some _ =>
        inl (Exception "More than one non-asset file specified for zip file")
    | None =>
        if negb (endswith filepath ".yaml")
        then inl (Exception
                    ("Found invalid non-asset file " ++ filepath
                     ++ ". There should only be a single file not in assets/, and it should have a .yaml suffix."))
        else
          match lift (read filepath) with
          | inl e => inl e
          | inr content => inr (Some content, assets_list)
          end
    end.

Fixpoint loop (read : string -> library string) (namelist : list string)
    (st : loop_state) : result loop_state :=
  match namelist with
  | [] => inr st
  | filepath :: rest =>
      match loop_body read st filepath with
      | inl e => inl e
      | inr st' => loop read rest st'
      end
  end.

Definition get_exploration_components_from_zip (zf : library archive)
  : result (string * list (string * string)) :=
  match lift zf with
  | inl e => inl e
  | inr (namelist, read) =>
      match loop read namelist (None, []) with
      | inl e => inl e
      | inr (None, _) =>
          inl (Exception "No yaml file specified in zip file contents")
      | inr (Some yaml_content, assets_list) =>
          inr (yaml_content, assets_list)
      end
  end.

End ZipComponents.

(** ** [get_random_int] and [get_random_choice] (utils.py, lines 216-229) *)

From Stdlib Require Import ZArith.

Module RandomChoice.

Inductive exn : Type :=
| AssertionError
| ValueError
| IndexError.

Definition result (A : Type) : Type := (exn + A)%type.

(** An integer of Python 2 is an [int] or a [long]; [isinstance(n, int)]
    holds for the first only, whatever the value. *)
Inductive pyinteger : Type :=
| PyInt (z : Z)
| PyLong (z : Z).

Definition value (n : pyinteger) : Z :=
  match n with
  | PyInt z => z
  | PyLong z => z
  end.

Definition isinstance_int (n : pyinteger) : bool :=
  match n with
  | PyInt _ => true
  | PyLong _ => false
  end.

(** [len(l)] is an [int]. *)
Definition len {A : Type} (l : list A) : pyinteger :=
  PyInt (Z.of_nat (length l)).

(** [l[i]] for an integer [i]: a negative index counts from the end. *)
Definition getitem {A : Type} (l : list A) (i : Z) : result A :=
  let n := Z.of_nat (length l) in
  let j := if (i <? 0)%Z then (i + n)%Z else i in
  if (j <? 0)%Z || (n <=? j)%Z then inl IndexError
  else match nth_error l (Z.to_nat j) with
       | Some x => inr x
       | None => inl IndexError
       end.

Section Generator.

(** [draw n] is the integer the system generator hands out when
    [randrange(0, n)] is called with [n > 0]. *)
Variable draw : Z -> Z.

(** [generator.randrange(0, stop)]: an empty range raises. *)
Definition randrange (stop : Z) : result Z :=
  if (stop <=? 0)%Z then inl ValueError else inr (draw stop).

Definition get_random_int (upper_bound : pyinteger) : result Z :=
  if negb ((0 <=? value upper_bound)%Z && isinstance_int upper_bound)
  then inl AssertionError
  else randrange (value upper_bound).

Definition get_random_choice {A : Type} (alist : list A) : result A :=
  if negb (0 <? value (len alist))%Z then inl AssertionError
  else
    match get_random_int (len alist) with
    | inl e => inl e
    | inr index => getitem alist index
    end.

End Generator.

End RandomChoice.

(** ** [get_file_contents] and [get_exploration_components_from_dir]
    (utils.py, lines 61-124)

    The directory tree is given by what the functions read of it.  The
    generator [os.walk(dir_path)] yields the triples [(root, dirs, files)]
    of [walk], in order, and then either ends ([walk_end] is [None]) or
    raises.  For a path and a mode, [open_read] is what [open] and
    [f.read()] give: the bytes of the file, or an error.  [decode_utf8]
    is [bytes.decode('utf-8')], which gives a text or raises
    [UnicodeDecodeError].  [os.path.join] is the function that
    [vfs_construct_path] mimics. *)
Module DirComponents.

Inductive exn : Type :=
| IndexError
| Exception (msg : string)
| IOError (what : string)
| UnicodeDecodeError
| WalkError (what : string).

Definition result (A : Type) : Type := (exn + A)%type.

Definition loop_state : Type :=
  (option string * list (string * string))%type.

Definition walk_entry : Type :=
  (string * list string * list string)%type.

(** The loop [while dir_path_array[-1] == '': dir_path_array =
    dir_path_array[:-1]].  Every round shortens the list, so a list of
    length [n] needs at most [n + 1] rounds; [fuel] counts them. *)
Fixpoint strip_loop (fuel : nat) (dir_path_array : list string)
  : result (list string) :=
  match fuel with
  | O => inr dir_path_array
  | S fuel' =>
      match dir_path_array with
      | [] => inl IndexError
      | _ :: _ =>
          if last dir_path_array "" =? ""
          then strip_loop fuel' (removelast dir_path_array)
          else inr dir_path_array
      end
  end.

Section Tree.

Variable open_read : string -> string -> (string + string)%type.
Variable decode_utf8 : string -> option string.

(** [get_file_contents(filepath, raw_bytes, mode)] *)
Definition get_file_contents (filepath : string) (raw_bytes : bool)
    (mode : string) : result string :=
  match open_read filepath mode with
  | inl what => inl (IOError what)
  | inr data =>
      if raw_bytes then inr data
      else match decode_utf8 data with
           | Some text => inr text
           | None => inl UnicodeDecodeError
           end
  end.

Variable dir_path : string.
Variable dir_path_length : nat.

(** Body of [for directory in dirs]. *)
Definition dirs_body (root directory : string) : result unit :=
  if (root =? dir_path) && negb (directory =? "assets")
  then inl (Exception
              ("The only directory in " ++ dir_path ++ " should be assets/"))
  else inr tt.

Fixpoint dirs_loop (root : string) (dirs : list string) : result unit :=
  match dirs with
  | [] => inr tt
  | directory :: rest =>
      match dirs_body root directory with
      | inl e => inl e
      | inr _ => dirs_loop root rest
      end
  end.

(** The name recorded for an asset: the path without its first
    [dir_path_length + 1] components. *)
Definition asset_name (filepath : string) : string :=
  let filepath_array := split_on "/" filepath in
  String.concat "/" (skipn (dir_path_length + 1) filepath_array).

(** Body of [for filename in files]. *)
Definition files_body (root : string) (st : loop_state)
    (filename : string) : result loop_state :=
  let '(yaml_content, assets_list) := st in
  let filepath := vfs_construct_path root [filename] in
  if root =? dir_path then
    if endswith filepath ".DS_Store" then inr st
    else
      match yaml_content with
      | Some _ =>
          inl (Exception
                 ("More than one non-asset file specified for " ++ dir_path))
      | None =>
          if negb (endswith filepath ".yaml")
          then inl (Exception
                      ("Found invalid non-asset file " ++ filepath
                       ++ ". There should only be a single non-asset file, and it should have a .yaml suffix."))
          else
            match get_file_contents filepath false "r" with
            | inl e => inl e
            | inr content => inr (Some content, assets_list)
            end
      end
  else
    match get_file_contents filepath true "r" with
    | inl e => inl e
    | inr bytes =>
        inr (yaml_content,
             (assets_list ++ [(asset_name filepath, bytes)])%list)
    end.

Fixpoint files_loop (root : string) (files : list string)
    (st : loop_state) : result loop_state :=
  match files with
  | [] => inr st
  | filename :: rest =>
      match files_body root st filename with
      | inl e => inl e
      | inr st' => files_loop root rest st'
      end
  end.

(** The loop [for root, dirs, files in os.walk(dir_path)]. *)
Fixpoint walk_loop (walk : list walk_entry) (st : loop_state)
  : result loop_state :=
  match walk with
  | [] => inr st
  | (root, dirs, files) :: rest =>
      match dirs_loop root dirs with
      | inl e => inl e
      | inr _ =>
          match files_loop root files st with
          | inl e => inl e
          | inr st' => walk_loop rest st'
          end
      end
  end.

(** The assets the loop records for the files [paths] below [dir_path],
    when every one of them can be read. *)
Fixpoint read_assets (paths : list string)
  : result (list (string * string)) :=
  match paths with
  | [] => inr []
  | filepath :: rest =>
      match get_file_contents filepath true "r" with
      | inl e => inl e
      | inr bytes =>
          match read_assets rest with
          | inl e => inl e
          | inr more => inr ((asset_name filepath, bytes) :: more)
          end
      end
  end.

(** How [yaml_content] moves from [y0] to [y1] while the loop meets the
    files [seen] directly in [dir_path], [.DS_Store] files left out, and
    does not raise: at most one file is met, it ends with [.yaml], it can
    be read and decoded, and its text is stored. *)
Definition yaml_outcome (y0 : option string) (seen : list string)
    (y1 : option string) : Prop :=
  match y0, seen with
  | _, [] => y1 = y0
  | None, [f] =>
      endswith f ".yaml" = true /\
      exists text, get_file_contents f false "r" = inr text /\
                   y1 = Some text
  | _, _ => False
  end.

End Tree.

Definition get_exploration_components_from_dir
    (open_read : string -> string -> (string + string)%type)
    (decode_utf8 : string -> option string)
    (dir_path : string) (walk : list walk_entry) (walk_end : option string)
  : result (string * list (string * string)) :=
  let dir_path_array := split_on "/" dir_path in
  match strip_loop (S (length dir_path_array)) dir_path_array with
  | inl e => inl e
  | inr dir_path_array =>
      let dir_path_length := length dir_path_array in
      match walk_loop open_read decode_utf8 dir_path dir_path_length
              walk (None, []) with
      | inl e => inl e
      | inr (yaml_content, assets_list) =>
          match walk_end with
          | Some what => inl (WalkError what)
          | None =>
              match yaml_content with
              | None =>
                  inl (Exception ("No yaml file specifed for " ++ dir_path))
              | Some yaml_content => inr (yaml_content, assets_list)
              end
          end
      end
  end.

(** The paths of the files that sit directly in [dir_path]. *)
Definition top_files (dir_path : string) (walk : list walk_entry)
  : list string :=
  flat_map (fun e : walk_entry =>
              let '(root, _, files) := e in
              if root =? dir_path
              then map (fun f => vfs_construct_path root [f]) files
              else [])
           walk.

(** The paths of the files that sit below [dir_path]. *)
Definition deep_files (dir_path : string) (walk : list walk_entry)
  : list string :=
  flat_map (fun e : walk_entry =>
              let '(root, _, files) := e in
              if root =? dir_path
              then []
              else map (fun f => vfs_construct_path root [f]) files)
           walk.

(** The directories that sit directly in [dir_path]. *)
Definition top_dirs (dir_path : string) (walk : list walk_entry)
  : list string :=
  flat_map (fun e : walk_entry =>
              let '(root, dirs, _) := e in
              if root =? dir_path then dirs else [])
           walk.

(** The value of [dir_path_length] for a path the first loop accepts. *)
Definition stripped_length (dir_path : string) : nat :=
  let dir_path_array := split_on "/" dir_path in
  match strip_loop (S (length dir_path_array)) dir_path_array with
  | inr dir_path_array' => length dir_path_array'
  | inl _ => 0
  end.

(** A file the loop does not skip. *)
Definition not_ds_store (filepath : string) : bool :=
  negb (endswith filepath ".DS_Store").

(** The name of a directory entry: not empty, without [/]. *)
Definition entry_name (name : string) : Prop :=
  name <> "" /\ contains_char "/" name = false.

End DirComponents.

(** ** Concrete runs *)

Example normpath_samples :
  map vfs_normpath
      [""; "."; "/"; "//"; "///"; "a//b"; "a/./b/../c"; "/../a"; "../a";
       "//a/b"; "////a"; "a/.."; "../.."; "a/../.."; "/a/../../b/"]
  = ["."; "."; "/"; "//"; "/"; "a/b"; "a/c"; "/a"; "../a";
     "//a/b"; "/a"; "."; "../.."; ".."; "/b"].
Proof. vm_compute. reflexivity. Qed.

Example construct_samples :
  [vfs_construct_path "a" ["b"; "c"]; vfs_construct_path "a/" ["b"];
   vfs_construct_path "a" ["/b"]; vfs_construct_path "a" [];
   vfs_construct_path "" ["b"]; vfs_construct_path "a" [""]]
  = ["a/b/c"; "a/b"; "/b"; "a"; "b"; "a/"].
Proof. vm_compute. reflexivity. Qed.

(** ** Splitting and joining *)

Section SplitJoin.

Variable sep : ascii.

Lemma split_on_not_nil (s : string) : split_on sep s <> [].
Proof.
  destruct s as [|c s]; simpl; [discriminate|].
  destruct (Ascii.eqb c sep); [discriminate|].
  destruct (split_on sep s); discriminate.
Qed.

Lemma split_on_free (s : string) :
  Forall (fun c => contains_char sep c = false) (split_on sep s).
Proof.
  induction s as [|c s IH]; simpl.
  - constructor; [reflexivity | constructor].
  - destruct (Ascii.eqb c sep) eqn:E.
    + constructor; [reflexivity | exact IH].
    + destruct (split_on sep s) as [|h t].
      * constructor; [simpl; rewrite E; reflexivity | constructor].
      * inversion IH; subst.
        constructor; [simpl; rewrite E; assumption | assumption].
Qed.

Lemma split_on_one (c : string) :
  contains_char sep c = false -> split_on sep c = [c].
Proof.
  induction c as [|a c IH]; simpl; intros H; [reflexivity|].
  apply orb_false_iff in H as [Ha Hc].
  rewrite Ha, (IH Hc). reflexivity.
Qed.

Lemma split_on_cons (c s : string) :
  contains_char sep c = false ->
  split_on sep (c ++ String sep s) = c :: split_on sep s.
Proof.
  induction c as [|a c IH]; simpl; intros H.
  - rewrite Ascii.eqb_refl. reflexivity.
  - apply orb_false_iff in H as [Ha Hc].
    rewrite Ha, (IH Hc). reflexivity.
Qed.

Lemma split_on_concat (l : list string) :
  l <> [] ->
  Forall (fun c => contains_char sep c = false) l ->
  split_on sep (String.concat (String sep "") l) = l.
Proof.
  induction l as [|x l IH]; intros Hne Hall; [congruence|].
  inversion Hall as [|? ? Hx Hl]; subst.
  destruct l as [|y l].
  - simpl. apply split_on_one; assumption.
  - change (String.concat (String sep "") (x :: y :: l))
      with (x ++ String sep (String.concat (String sep "") (y :: l))).
    rewrite split_on_cons by assumption.
    rewrite IH; [reflexivity | discriminate | assumption].
Qed.

End SplitJoin.

(** ** One round of the normalizing loop *)

Lemma truthy_snoc {A : Type} (l : list A) (x : A) : truthy (l ++ [x]) = true.
Proof. destruct l; reflexivity. Qed.

Lemma norm_step_skip (k : nat) (nc : list string) (c : string) :
  c = "" \/ c = "." -> norm_step k nc c = nc.
Proof. intros [-> | ->]; reflexivity. Qed.

Lemma norm_step_other (k : nat) (nc : list string) (c : string) :
  c <> "" -> c <> "." -> c <> ".." -> norm_step k nc c = (nc ++ [c])%list.
Proof.
  intros H1 H2 H3. unfold norm_step.
  apply String.eqb_neq in H1, H2, H3. rewrite H1, H2, H3. reflexivity.
Qed.

Lemma norm_step_dotdot_nil (k : nat) :
  norm_step k [] ".." = if (k =? 0)%nat then [".."] else [].
Proof. unfold norm_step; simpl. destruct (k =? 0)%nat; reflexivity. Qed.

Lemma norm_step_dotdot_snoc (k : nat) (l : list string) (x : string) :
  norm_step k (l ++ [x]) ".." =
  if x =? ".." then (l ++ [x; ".."])%list else l.
Proof.
  unfold norm_step. simpl ((".." =? "") || (".." =? ".")).
  rewrite truthy_snoc, last_last, removelast_last. cbv iota.
  simpl (negb (".." =? "..")). rewrite andb_false_r. simpl.
  destruct (x =? ".."); [|reflexivity].
  rewrite <- app_assoc. reflexivity.
Qed.

Lemma plain_neq (c : string) : plain c -> c <> "" /\ c <> "." /\ c <> "..".
Proof. intros [[H1 [H2 _]] H3]. auto. Qed.

Lemma norm_step_plain (k : nat) (nc : list string) (c : string) :
  plain c -> norm_step k nc c = (nc ++ [c])%list.
Proof.
  intros H. destruct (plain_neq c H) as [H1 [H2 H3]].
  apply norm_step_other; assumption.
Qed.

Lemma segment_dotdot : segment "..".
Proof. repeat split; discriminate. Qed.

Lemma plain_segment (c : string) : plain c -> segment c.
Proof. intros [H _]; exact H. Qed.

(** Every component the loop meets is skipped, is [..], or is plain. *)
Lemma comp_cases (c : string) :
  contains_char "/" c = false ->
  c = "" \/ c = "." \/ c = ".." \/ plain c.
Proof.
  intros H.
  destruct (string_dec c "") as [->|H1]; [auto|].
  destruct (string_dec c ".") as [->|H2]; [auto|].
  destruct (string_dec c "..") as [->|H3]; [auto|].
  right; right; right. repeat split; assumption.
Qed.

Lemma normal_nil (k : nat) : normal k [].
Proof. exists 0, []. split; [reflexivity | split; [constructor | reflexivity]]. Qed.

Lemma snoc_cases {A : Type} (l : list A) :
  l = [] \/ exists l' x, l = (l' ++ [x])%list.
Proof.
  destruct l as [|a l]; [left; reflexivity | right].
  destruct (@exists_last A (a :: l)) as (l' & x & E); [discriminate|].
  exists l', x. exact E.
Qed.

Lemma repeat_snoc {A : Type} (x : A) (n : nat) :
  (repeat x n ++ [x])%list = repeat x (S n).
Proof.
  induction n as [|n IH]; [reflexivity|].
  simpl. rewrite IH. reflexivity.
Qed.

Lemma norm_step_normal (k : nat) (nc : list string) (c : string) :
  contains_char "/" c = false ->
  normal k nc -> normal k (norm_step k nc c).
Proof.
  intros Hc (n & rest & -> & Hrest & Hk).
  destruct (comp_cases c Hc) as [E | [E | [E | Hp]]].
  - rewrite norm_step_skip by auto. exists n, rest. auto.
  - rewrite norm_step_skip by auto. exists n, rest. auto.
  - subst c.
    destruct (snoc_cases rest) as [-> | (rest' & x & ->)].
    + rewrite app_nil_r. destruct n as [|n].
      * simpl. rewrite norm_step_dotdot_nil.
        destruct (k =? 0)%nat eqn:E.
        -- exists 1, []. apply Nat.eqb_eq in E.
           repeat split; [constructor | intros; congruence].
        -- apply normal_nil.
      * rewrite <- repeat_snoc, norm_step_dotdot_snoc. simpl (".." =? "..").
        cbv iota. exists (S (S n)), [].
        split; [|split; [constructor | intros H; specialize (Hk H); discriminate]].
        rewrite app_nil_r. change [".."; ".."] with ([".."] ++ [".."])%list.
        rewrite app_assoc, !repeat_snoc. reflexivity.
    + rewrite app_assoc, norm_step_dotdot_snoc.
      apply Forall_app in Hrest as [Hrest' Hx].
      inversion Hx as [|? ? Hpx _]; subst.
      destruct Hpx as [_ Hne]. apply String.eqb_neq in Hne. rewrite Hne.
      exists n, rest'. auto.
  - rewrite norm_step_plain by assumption.
    exists n, (rest ++ [c])%list. rewrite app_assoc.
    repeat split; [|assumption].
    apply Forall_app; split; [assumption | constructor; [assumption|constructor]].
Qed.

(** ** The whole loop *)

Lemma fold_norm_step_normal (k : nat) (comps acc : list string) :
  Forall (fun c => contains_char "/" c = false) comps ->
  normal k acc -> normal k (fold_left (norm_step k) comps acc).
Proof.
  intros H; revert acc.
  induction H as [|c comps Hc _ IH]; intros acc Hacc; simpl; [assumption|].
  apply IH, norm_step_normal; assumption.
Qed.

Lemma new_comps_normal (path : string) :
  normal (initial_slashes_of path) (new_comps_of path).
Proof.
  apply fold_norm_step_normal; [apply split_on_free | apply normal_nil].
Qed.

Lemma fold_norm_step_plain (k : nat) (rest acc : list string) :
  Forall plain rest ->
  fold_left (norm_step k) rest acc = (acc ++ rest)%list.
Proof.
  intros H; revert acc.
  induction H as [|c rest Hc _ IH]; intros acc; simpl.
  - rewrite app_nil_r. reflexivity.
  - rewrite norm_step_plain by assumption.
    rewrite IH, <- app_assoc. reflexivity.
Qed.

Lemma norm_step_dotdot_run (m : nat) :
  norm_step 0 (repeat ".." m) ".." = repeat ".." (S m).
Proof.
  destruct m as [|m]; [reflexivity|].
  rewrite <- repeat_snoc, norm_step_dotdot_snoc. simpl (".." =? "..").
  cbv iota. change [".."; ".."] with ([".."] ++ [".."])%list.
  rewrite app_assoc, !repeat_snoc. reflexivity.
Qed.

Lemma fold_norm_step_dotdots (n m : nat) (rest : list string) :
  fold_left (norm_step 0) (repeat ".." n ++ rest) (repeat ".." m) =
  fold_left (norm_step 0) rest (repeat ".." (m + n)).
Proof.
  revert m; induction n as [|n IH]; intros m; simpl.
  - rewrite Nat.add_0_r. reflexivity.
  - rewrite norm_step_dotdot_run, IH. f_equal. f_equal. lia.
Qed.

(** A list in normal form goes through the loop unchanged. *)
Lemma fold_norm_step_fixed (k : nat) (l : list string) :
  normal k l -> fold_left (norm_step k) l [] = l.
Proof.
  intros (n & rest & -> & Hrest & Hk).
  destruct k as [|k].
  - change (@nil string) with (repeat ".." 0) at 1.
    rewrite fold_norm_step_dotdots. simpl.
    apply fold_norm_step_plain; assumption.
  - rewrite Hk by discriminate. simpl.
    apply fold_norm_step_plain; assumption.
Qed.

Lemma fold_norm_step_empties (k n : nat) (l acc : list string) :
  fold_left (norm_step k) (repeat "" n ++ l) acc =
  fold_left (norm_step k) l acc.
Proof. induction n as [|n IH]; simpl; [reflexivity | exact IH]. Qed.

Lemma normal_segments (k : nat) (l : list string) :
  normal k l -> Forall segment l.
Proof.
  intros (n & rest & -> & Hrest & _).
  apply Forall_app; split.
  - apply Forall_forall. intros x Hx.
    apply repeat_spec in Hx; subst. apply segment_dotdot.
  - eapply Forall_impl; [|exact Hrest]. apply plain_segment.
Qed.

Lemma normal_absolute (k : nat) (l : list string) :
  k <> 0 -> normal k l -> Forall plain l.
Proof.
  intros Hk (n & rest & -> & Hrest & Hn).
  rewrite (Hn Hk). exact Hrest.
Qed.

(** ** Leading slashes *)

Lemma startswith_nil (s : string) : startswith s "" = true.
Proof. destruct s; reflexivity. Qed.

Lemma startswith_cons (c a : ascii) (s pre : string) :
  startswith (String c s) (String a pre) = Ascii.eqb a c && startswith s pre.
Proof.
  unfold startswith; simpl.
  destruct (ascii_dec a c) as [->|Hne].
  - rewrite Ascii.eqb_refl. reflexivity.
  - apply Ascii.eqb_neq in Hne. rewrite Hne. reflexivity.
Qed.

Lemma startswith_empty (a : ascii) (pre : string) :
  startswith "" (String a pre) = false.
Proof. reflexivity. Qed.

Lemma startswith_slash (s : string) :
  startswith s "/" = negb (count_leading "/" s =? 0)%nat.
Proof.
  destruct s as [|c s]; [reflexivity|].
  rewrite startswith_cons, startswith_nil, andb_true_r. cbn [count_leading].
  rewrite (Ascii.eqb_sym "/" c). destruct (Ascii.eqb c "/"); reflexivity.
Qed.

Lemma startswith_slash2 (s : string) :
  startswith s "//" = (2 <=? count_leading "/" s)%nat.
Proof.
  destruct s as [|c [|d s]]; [reflexivity | |].
  - rewrite startswith_cons, startswith_empty, andb_false_r. cbn [count_leading].
    destruct (Ascii.eqb c "/"); reflexivity.
  - rewrite !startswith_cons, startswith_nil, andb_true_r. cbn [count_leading].
    rewrite (Ascii.eqb_sym "/" c), (Ascii.eqb_sym "/" d).
    destruct (Ascii.eqb c "/"), (Ascii.eqb d "/"); reflexivity.
Qed.

Lemma startswith_slash3 (s : string) :
  startswith s "///" = (3 <=? count_leading "/" s)%nat.
Proof.
  destruct s as [|c [|d [|e s]]]; [reflexivity | | |].
  - rewrite startswith_cons, startswith_empty, andb_false_r. cbn [count_leading].
    destruct (Ascii.eqb c "/"); reflexivity.
  - rewrite !startswith_cons, startswith_empty, !andb_false_r. cbn [count_leading].
    destruct (Ascii.eqb c "/"), (Ascii.eqb d "/"); reflexivity.
  - rewrite !startswith_cons, startswith_nil, andb_true_r. cbn [count_leading].
    rewrite (Ascii.eqb_sym "/" c), (Ascii.eqb_sym "/" d),
      (Ascii.eqb_sym "/" e).
    destruct (Ascii.eqb c "/"), (Ascii.eqb d "/"), (Ascii.eqb e "/");
      reflexivity.
Qed.

(** [initial_slashes] in terms of the number of slashes in front. *)
Lemma initial_slashes_count (path : string) :
  initial_slashes_of path =
  match count_leading "/" path with
  | 0 => 0
  | 2 => 2
  | _ => 1
  end.
Proof.
  unfold initial_slashes_of.
  rewrite startswith_slash, startswith_slash2, startswith_slash3.
  destruct (count_leading "/" path) as [|[|[|n]]]; reflexivity.
Qed.

Lemma initial_slashes_le (path : string) : initial_slashes_of path <= 2.
Proof.
  rewrite initial_slashes_count.
  destruct (count_leading "/" path) as [|[|[|n]]]; lia.
Qed.

Lemma initial_slashes_zero (path : string) :
  (initial_slashes_of path =? 0)%nat = negb (startswith path "/").
Proof.
  rewrite initial_slashes_count, startswith_slash.
  destruct (count_leading "/" path) as [|[|[|n]]]; reflexivity.
Qed.

Lemma count_leading_mul (k : nat) (s : string) :
  startswith s "/" = false ->
  count_leading "/" (str_mul "/" k ++ s) = k.
Proof.
  intros H. induction k as [|k IH]; simpl.
  - rewrite startswith_slash in H.
    destruct (count_leading "/" s); [reflexivity | discriminate].
  - rewrite IH. reflexivity.
Qed.

Lemma split_on_mul (k : nat) (s : string) :
  split_on "/" (str_mul "/" k ++ s) = (repeat "" k ++ split_on "/" s)%list.
Proof. induction k as [|k IH]; simpl; [reflexivity | rewrite IH; reflexivity]. Qed.

Lemma segment_head (c : string) : segment c -> startswith c "/" = false.
Proof.
  intros (Hne & _ & Hs). destruct c as [|a c]; [congruence|].
  simpl in Hs. apply orb_false_iff in Hs as [Ha _].
  rewrite startswith_cons, Ascii.eqb_sym, Ha. reflexivity.
Qed.

Lemma startswith_app (x y : string) :
  x <> "" -> startswith (x ++ y) "/" = startswith x "/".
Proof.
  destruct x as [|a x]; [congruence|]. intros _.
  change (String a x ++ y) with (String a (x ++ y)).
  rewrite !startswith_cons, !startswith_nil. reflexivity.
Qed.

Lemma concat_head (l : list string) :
  Forall segment l -> startswith (String.concat "/" l) "/" = false.
Proof.
  intros H. destruct H as [|x l Hx Hl]; [reflexivity|].
  destruct l as [|y l]; simpl.
  - apply segment_head; assumption.
  - rewrite startswith_app by apply Hx. apply segment_head; assumption.
Qed.

Lemma concat_empty (l : list string) :
  Forall segment l -> String.concat "/" l = "" -> l = [].
Proof.
  intros H E. destruct H as [|x l Hx Hl]; [reflexivity|].
  exfalso. destruct Hx as (Hne & _). apply Hne.
  destruct l as [|y l]; simpl in E; [assumption|].
  destruct x; [reflexivity | discriminate].
Qed.

Lemma restored_eq (path : string) :
  restored path =
  str_mul "/" (initial_slashes_of path)
  ++ String.concat "/" (new_comps_of path).
Proof.
  unfold restored, slash.
  destruct (initial_slashes_of path); reflexivity.
Qed.

(** ** Shape of the result *)

Lemma segments_free (l : list string) :
  Forall segment l -> Forall (fun c => contains_char "/" c = false) l.
Proof. apply Forall_impl. intros c (_ & _ & H). exact H. Qed.

(** Normalizing [k] slashes followed by a joined normal list gives back
    the same [initial_slashes] and the same [new_comps]. *)
Lemma normal_form_fixed (k : nat) (l : list string) :
  k <= 2 -> normal k l ->
  initial_slashes_of (str_mul "/" k ++ String.concat "/" l) = k /\
  new_comps_of (str_mul "/" k ++ String.concat "/" l) = l.
Proof.
  intros Hk Hl.
  pose proof (normal_segments k l Hl) as Hseg.
  assert (Hi : initial_slashes_of (str_mul "/" k ++ String.concat "/" l) = k).
  { rewrite initial_slashes_count, count_leading_mul
      by (apply concat_head; assumption).
    destruct k as [|[|[|k]]]; [reflexivity | reflexivity | reflexivity | lia]. }
  split; [exact Hi|].
  unfold new_comps_of. rewrite Hi, split_on_mul, fold_norm_step_empties.
  destruct l as [|x l]; [reflexivity|].
  rewrite (split_on_concat "/") by (try discriminate; apply segments_free; assumption).
  apply fold_norm_step_fixed; assumption.
Qed.

Lemma restored_fixed (path : string) :
  restored (restored path) = restored path.
Proof.
  rewrite (restored_eq (restored path)), (restored_eq path).
  destruct (normal_form_fixed (initial_slashes_of path) (new_comps_of path)
              (initial_slashes_le path) (new_comps_normal path)) as [-> ->].
  reflexivity.
Qed.

Lemma str_or_nonempty (x y : string) : x <> "" -> str_or x y = x.
Proof. intros H. unfold str_or. apply String.eqb_neq in H. rewrite H. reflexivity. Qed.

Lemma normpath_nonempty (path : string) :
  path <> "" -> vfs_normpath path = str_or (restored path) dot.
Proof.
  intros H. unfold vfs_normpath. apply String.eqb_neq in H. rewrite H.
  reflexivity.
Qed.

Lemma normpath_absolute (path : string) :
  startswith path "/" = true ->
  vfs_normpath path = restored path /\
  initial_slashes_of path <> 0.
Proof.
  intros H.
  assert (Hk : initial_slashes_of path <> 0).
  { intros E. pose proof (initial_slashes_zero path) as Z.
    rewrite E, H in Z. discriminate. }
  split; [|exact Hk].
  assert (Hp : path <> "") by (intros ->; discriminate).
  rewrite normpath_nonempty by assumption.
  apply str_or_nonempty. rewrite restored_eq.
  destruct (initial_slashes_of path); [congruence | discriminate].
Qed.

(** The result starts with exactly [initial_slashes] slashes. *)
Lemma normpath_leading (path : string) :
  count_leading "/" (vfs_normpath path) = initial_slashes_of path.
Proof.
  destruct (string_dec path "") as [->|Hp]; [reflexivity|].
  rewrite normpath_nonempty by assumption.
  pose proof (normal_segments _ _ (new_comps_normal path)) as Hseg.
  unfold str_or. destruct (restored path =? "") eqn:E.
  - apply String.eqb_eq in E. rewrite restored_eq in E.
    destruct (initial_slashes_of path); [reflexivity | discriminate].
  - rewrite restored_eq. apply count_leading_mul, concat_head. assumption.
Qed.

(** ** Properties of [vfs_normpath] *)

(** C1: normalization is idempotent: for every string [p],
    [vfs_normpath (vfs_normpath p)] is [vfs_normpath p]. *)
Theorem vfs_normpath_idempotent (p : string) :
  vfs_normpath (vfs_normpath p) = vfs_normpath p.
Proof.
  destruct (string_dec p "") as [->|Hp]; [reflexivity|].
  rewrite (normpath_nonempty p Hp).
  destruct (string_dec (restored p) "") as [E|E].
  - rewrite E. reflexivity.
  - rewrite (str_or_nonempty _ dot E).
    rewrite (normpath_nonempty _ E), restored_fixed.
    apply str_or_nonempty. exact E.
Qed.

Lemma last_is_dotdot_snoc (l : list string) (x : string) :
  Spec.last_is_dotdot (l ++ [x]) = (x =? "..").
Proof.
  unfold Spec.last_is_dotdot, Spec.last_entry.
  rewrite rev_app_distr. reflexivity.
Qed.

(** The code's treatment of [..] is the three-way rule of the text. *)
Lemma norm_step_dotdot_rule (k : nat) (out : list string) :
  norm_step k out ".." = Spec.dotdot_rule (negb (k =? 0)%nat) out.
Proof.
  destruct (snoc_cases out) as [-> | (l & x & ->)].
  - rewrite norm_step_dotdot_nil. unfold Spec.dotdot_rule. simpl.
    destruct (k =? 0)%nat; reflexivity.
  - rewrite norm_step_dotdot_snoc. unfold Spec.dotdot_rule.
    rewrite last_is_dotdot_snoc, length_app, rev_app_distr. simpl length.
    replace (length l + 1 =? 0)%nat with false
      by (symmetry; apply Nat.eqb_neq; lia).
    simpl. destruct (x =? ".."); simpl.
    + rewrite andb_false_r, <- app_assoc. reflexivity.
    + rewrite rev_involutive. reflexivity.
Qed.

(** C2: scanning the components left to right, a component [..] pops the
    last entry of the output list when that list is non-empty and does not
    end in [..]; otherwise it is appended when the path is relative and
    the list empty, or when the list ends in [..]; otherwise (absolute
    path, empty list) it is dropped.  So ["/../a"] gives ["/a"] and
    ["../a"] gives ["../a"]. *)
Theorem normpath_dotdot_rule :
  (forall (path : string) (pre post : list string),
      split_on "/" path = (pre ++ ".." :: post)%list ->
      fold_left (norm_step (initial_slashes_of path)) (pre ++ [".."]) [] =
      Spec.dotdot_rule (startswith path "/")
        (fold_left (norm_step (initial_slashes_of path)) pre [])) /\
  vfs_normpath "/../a" = "/a" /\
  vfs_normpath "../a" = "../a".
Proof.
  split; [|split; reflexivity].
  intros path pre post _.
  rewrite fold_left_app. simpl.
  rewrite norm_step_dotdot_rule, initial_slashes_zero, negb_involutive.
  reflexivity.
Qed.

Lemma normpath_dotdot_rule_witness :
  split_on "/" "a/b/../c" = (["a"; "b"] ++ ".." :: ["c"])%list /\
  fold_left (norm_step (initial_slashes_of "a/b/../c")) (["a"; "b"] ++ [".."]) []
  = Spec.dotdot_rule (startswith "a/b/../c" "/")
      (fold_left (norm_step (initial_slashes_of "a/b/../c")) ["a"; "b"] []).
Proof.
  split; [reflexivity|].
  apply (proj1 normpath_dotdot_rule "a/b/../c" ["a"; "b"] ["c"]).
  reflexivity.
Defined.

(** C3: the result starts with exactly two slashes when the input starts
    with [//] but not [///], with exactly one slash for any other input
    that starts with [/], and with none otherwise; those slashes are put
    in front of the joined components.  So ["//a/b"] stays ["//a/b"] and
    ["////a"] becomes ["/a"]. *)
Theorem normpath_leading_slashes :
  (forall path : string,
      count_leading "/" (vfs_normpath path) =
      (if startswith path "//" && negb (startswith path "///") then 2
       else if startswith path "/" then 1 else 0) /\
      (if startswith path "/"
       then vfs_normpath path =
            str_mul "/" (count_leading "/" (vfs_normpath path))
            ++ String.concat "/" (new_comps_of path)
       else True)) /\
  vfs_normpath "//a/b" = "//a/b" /\
  vfs_normpath "////a" = "/a".
Proof.
  split; [|split; reflexivity].
  intros path. split.
  - rewrite normpath_leading, initial_slashes_count.
    rewrite startswith_slash, startswith_slash2, startswith_slash3.
    destruct (count_leading "/" path) as [|[|[|n]]]; reflexivity.
  - destruct (startswith path "/") eqn:E; [|exact I].
    rewrite normpath_leading.
    destruct (normpath_absolute path E) as [-> _].
    apply restored_eq.
Qed.

(** The components of the result: one empty string per leading slash,
    then the output list of the loop. *)
Lemma normpath_split (path : string) :
  new_comps_of path <> [] ->
  split_on "/" (vfs_normpath path) =
  (repeat "" (initial_slashes_of path) ++ new_comps_of path)%list.
Proof.
  intros Hne.
  pose proof (normal_segments _ _ (new_comps_normal path)) as Hseg.
  assert (Hp : path <> "") by (intros ->; apply Hne; reflexivity).
  assert (Hr : restored path <> "").
  { rewrite restored_eq. intros E. apply Hne, concat_empty; [assumption|].
    destruct (initial_slashes_of path); [exact E | discriminate]. }
  rewrite normpath_nonempty, str_or_nonempty by assumption.
  rewrite restored_eq, split_on_mul.
  rewrite (split_on_concat "/") by (try assumption; apply segments_free; assumption).
  reflexivity.
Qed.

(** C5: a component that is empty or [.] leaves the output list as it
    is, and neither occurs in the output list at the end of the loop; when
    that list is not empty, the components of the result are the empty
    strings in front of the leading slashes followed by that list.  So
    ["a//b"] gives ["a/b"] and ["a/./b/../c"] gives ["a/c"]. *)
Theorem normpath_skips_empty_and_dot :
  (forall (k : nat) (out : list string),
      norm_step k out "" = out /\ norm_step k out "." = out) /\
  (forall path : string,
      ~ In "" (new_comps_of path) /\ ~ In "." (new_comps_of path)) /\
  (forall path : string,
      new_comps_of path <> [] ->
      split_on "/" (vfs_normpath path) =
      (repeat "" (initial_slashes_of path) ++ new_comps_of path)%list) /\
  vfs_normpath "a//b" = "a/b" /\
  vfs_normpath "a/./b/../c" = "a/c".
Proof.
  split; [|split; [|split; [|split; reflexivity]]].
  - intros k out. split; reflexivity.
  - intros path.
    pose proof (normal_segments _ _ (new_comps_normal path)) as H.
    rewrite Forall_forall in H.
    split; intros Hin; apply H in Hin; destruct Hin as (H1 & H2 & _);
      congruence.
  - exact normpath_split.
Qed.

Lemma normpath_skips_empty_and_dot_witness :
  new_comps_of "/a/.//b" <> [] /\
  split_on "/" (vfs_normpath "/a/.//b") =
  (repeat "" (initial_slashes_of "/a/.//b") ++ new_comps_of "/a/.//b")%list.
Proof.
  split; [vm_compute; discriminate|].
  apply (proj1 (proj2 (proj2 normpath_skips_empty_and_dot)) "/a/.//b").
  vm_compute; discriminate.
Defined.

(** C6: joining ["a/b"], ["../c"], ["./d"] and normalizing the result
    gives ["a/c/d"]. *)
Theorem construct_then_normpath :
  vfs_normpath (vfs_construct_path "a/b" ["../c"; "./d"]) = "a/c/d".
Proof. reflexivity. Qed.

(** C7: the empty string is normalized to ["."], and so is every path
    whose joined components with the leading slashes put back are the
    empty string, which for a non-empty path happens exactly when it has
    no leading slash and no component is kept.  So [""] and ["."] both
    give ["."]. *)
Theorem normpath_empty_is_dot :
  vfs_normpath "" = "." /\
  (forall path : string, restored path = "" -> vfs_normpath path = ".") /\
  (forall path : string,
      restored path = "" <->
      startswith path "/" = false /\ new_comps_of path = []) /\
  vfs_normpath "." = ".".
Proof.
  split; [reflexivity|]. split; [|split; [|reflexivity]].
  - intros path E. unfold vfs_normpath. rewrite E.
    destruct (path =? ""); reflexivity.
  - intros path. rewrite restored_eq.
    pose proof (initial_slashes_zero path) as Z.
    pose proof (normal_segments _ _ (new_comps_normal path)) as Hseg.
    split.
    + intros E. destruct (initial_slashes_of path) as [|k]; [|discriminate].
      simpl in Z, E. split.
      * destruct (startswith path "/"); [discriminate | reflexivity].
      * apply concat_empty; assumption.
    + intros [Hs Hn]. rewrite Hs in Z. apply Nat.eqb_eq in Z.
      rewrite Z, Hn. reflexivity.
Qed.

Lemma normpath_empty_is_dot_witness :
  restored "a/../." = "" /\ vfs_normpath "a/../." = ".".
Proof.
  split; [reflexivity|].
  apply (proj1 (proj2 normpath_empty_is_dot) "a/../."). reflexivity.
Defined.

(** C9: for every string [p], the result starts with [/] exactly when [p]
    does. *)
Theorem normpath_preserves_absoluteness (p : string) :
  startswith (vfs_normpath p) "/" = startswith p "/".
Proof.
  rewrite startswith_slash, normpath_leading, initial_slashes_zero.
  apply negb_involutive.
Qed.

(** C10: the result for a path that starts with [/] has no component
    [..]. *)
Theorem normpath_absolute_no_dotdot (p : string) :
  startswith p "/" = true ->
  ~ In ".." (split_on "/" (vfs_normpath p)).
Proof.
  intros H Hin.
  destruct (normpath_absolute p H) as [E Hk]. rewrite E, restored_eq in Hin.
  pose proof (normal_absolute _ _ Hk (new_comps_normal p)) as Hpl.
  rewrite split_on_mul in Hin. apply in_app_or in Hin as [Hin | Hin].
  - apply repeat_spec in Hin. discriminate.
  - destruct (new_comps_of p) as [|x l] eqn:El.
    + simpl in Hin. destruct Hin as [Hin | []]. discriminate.
    + rewrite (split_on_concat "/") in Hin
        by first [ discriminate
                 | apply segments_free;
                   exact (Forall_impl _ plain_segment Hpl) ].
      rewrite Forall_forall in Hpl. apply Hpl in Hin as [_ Hne].
      congruence.
Qed.

Lemma normpath_absolute_no_dotdot_witness :
  startswith "/a/../../b" "/" = true /\
  ~ In ".." (split_on "/" (vfs_normpath "/a/../../b")).
Proof.
  split; [reflexivity|].
  apply (normpath_absolute_no_dotdot "/a/../../b"). reflexivity.
Defined.

(** ** Properties of [vfs_construct_path] *)

Lemma startswith_slash_spec (b : string) :
  startswith b "/" = Spec.starts_with_slash b.
Proof.
  destruct b as [|c b]; [reflexivity|].
  rewrite startswith_cons, startswith_nil, andb_true_r.
  apply Ascii.eqb_sym.
Qed.

Lemma endswith_slash_spec (path : string) :
  endswith path "/" = Spec.ends_with_slash path.
Proof.
  induction path as [|c path IH]; [reflexivity|].
  destruct path as [|d path].
  - simpl. destruct (Ascii.eqb c "/"); reflexivity.
  - change (Spec.ends_with_slash (String c (String d path)))
      with (Spec.ends_with_slash (String d path)).
    rewrite <- IH.
    change (endswith (String c (String d path)) "/")
      with (if String c (String d path) =? "/" then true
            else endswith (String d path) "/").
    replace (String c (String d path) =? "/") with false; [reflexivity|].
    symmetry. apply String.eqb_neq. discriminate.
Qed.

Lemma empty_length (path : string) :
  (path =? "") = (String.length path =? 0)%nat.
Proof. destruct path; reflexivity. Qed.

Lemma string_app_assoc (x y z : string) : (x ++ y) ++ z = x ++ (y ++ z).
Proof. induction x as [|a x IH]; simpl; [reflexivity | rewrite IH; reflexivity]. Qed.

Lemma construct_step_spec (path b : string) :
  construct_step path b = Spec.join_step path b.
Proof.
  unfold construct_step, Spec.join_step.
  rewrite startswith_slash_spec, endswith_slash_spec, empty_length,
    string_app_assoc.
  reflexivity.
Qed.

(** C4: [vfs_construct_path] is the left fold that starts from the base
    and, for each segment [b] in order, restarts from [b] when [b] starts
    with [/], appends [b] directly when the path so far is empty or ends
    with [/], and appends [/] and [b] otherwise.  With no segment the base
    is returned unchanged; ["a","b","c"] gives ["a/b/c"], ["a/","b"] gives
    ["a/b"] and ["a","/b"] gives ["/b"]. *)
Theorem vfs_construct_path_fold :
  (forall (base : string) (segments : list string),
      vfs_construct_path base segments = Spec.join base segments) /\
  (forall base : string, vfs_construct_path base [] = base) /\
  vfs_construct_path "a" ["b"; "c"] = "a/b/c" /\
  vfs_construct_path "a/" ["b"] = "a/b" /\
  vfs_construct_path "a" ["/b"] = "/b".
Proof.
  split; [|repeat split; reflexivity].
  intros base segments. unfold vfs_construct_path, Spec.join.
  revert base. induction segments as [|b segments IH]; intros base; simpl.
  - reflexivity.
  - rewrite IH, construct_step_spec. reflexivity.
Qed.

(** ** The functions on the two string types of Python 2 *)

Lemma code_app (a b : string) :
  Py2.code (a ++ b) = (Py2.code a ++ Py2.code b)%list.
Proof.
  unfold Py2.code. induction a as [|c a IH]; simpl; [reflexivity|].
  rewrite IH. reflexivity.
Qed.

Lemma N_of_ascii_eqb (a b : ascii) :
  N.eqb (N_of_ascii a) (N_of_ascii b) = Ascii.eqb a b.
Proof.
  destruct (Ascii.eqb_spec a b) as [->|Hne]; [apply N.eqb_refl|].
  apply N.eqb_neq. intros H. apply Hne.
  rewrite <- (ascii_N_embedding a), <- (ascii_N_embedding b), H.
  reflexivity.
Qed.

Lemma ueqb_code (a b : string) :
  Py2.ueqb (Py2.code a) (Py2.code b) = (a =? b).
Proof.
  revert b. induction a as [|c a IH]; intros [|d b]; try reflexivity.
  change (Py2.ueqb (Py2.code (String c a)) (Py2.code (String d b)))
    with (N.eqb (N_of_ascii c) (N_of_ascii d)
          && Py2.ueqb (Py2.code a) (Py2.code b)).
  rewrite N_of_ascii_eqb, IH. simpl.
  destruct (Ascii.eqb c d); reflexivity.
Qed.

Lemma ustartswith_code (s pre : string) :
  Py2.ustartswith (Py2.code s) (Py2.code pre) = startswith s pre.
Proof.
  revert s. induction pre as [|p pre IH]; intros s.
  - rewrite startswith_nil. destruct s; reflexivity.
  - destruct s as [|c s]; [reflexivity|].
    rewrite startswith_cons, <- IH, <- N_of_ascii_eqb. reflexivity.
Qed.

Lemma uendswith_code (s suf : string) :
  Py2.uendswith (Py2.code s) (Py2.code suf) = endswith s suf.
Proof.
  induction s as [|c s IH].
  - destruct suf; reflexivity.
  - change (Py2.uendswith (Py2.code (String c s)) (Py2.code suf))
      with (if Py2.ueqb (Py2.code (String c s)) (Py2.code suf) then true
            else Py2.uendswith (Py2.code s) (Py2.code suf)).
    rewrite ueqb_code, IH. reflexivity.
Qed.

Lemma usplit_code (sep : ascii) (s : string) :
  Py2.usplit (N_of_ascii sep) (Py2.code s) = map Py2.code (split_on sep s).
Proof.
  induction s as [|c s IH]; [reflexivity|].
  change (Py2.code (String c s)) with (N_of_ascii c :: Py2.code s).
  simpl. rewrite N_of_ascii_eqb, IH.
  destruct (Ascii.eqb c sep); [reflexivity|].
  destruct (split_on sep s); reflexivity.
Qed.

Lemma ujoin_code (sep : string) (l : list string) :
  Py2.ujoin (Py2.code sep) (map Py2.code l) = Py2.code (String.concat sep l).
Proof.
  induction l as [|x l IH]; [reflexivity|].
  destruct l as [|y l]; [reflexivity|].
  change (String.concat sep (x :: y :: l))
    with (x ++ sep ++ String.concat sep (y :: l)).
  rewrite !code_app, <- IH. reflexivity.
Qed.

Lemma umul_code (s : string) (n : nat) :
  Py2.umul (Py2.code s) n = Py2.code (str_mul s n).
Proof.
  induction n as [|n IH]; [reflexivity|].
  simpl. rewrite code_app, IH. reflexivity.
Qed.

Lemma initial_slashes_code (s : string) :
  Py2.initial_slashes_of (Py2.code s) = initial_slashes_of s.
Proof.
  unfold Py2.initial_slashes_of, initial_slashes_of.
  rewrite !ustartswith_code. reflexivity.
Qed.

(** On byte strings one round of the loop never raises and does what the
    untyped round does. *)
Lemma norm_step_code (k : nat) (nc : list string) (c : string) :
  Py2.norm_step k (map Py2.code nc) (Py2.code c)
  = inr (map Py2.code (norm_step k nc c)).
Proof.
  unfold Py2.norm_step, norm_step. rewrite !ueqb_code.
  destruct ((c =? "") || (c =? ".")); [reflexivity|].
  destruct (negb (c =? "..")); [simpl; rewrite map_app; reflexivity|].
  destruct (snoc_cases nc) as [-> | (l & x & ->)].
  - simpl. rewrite andb_true_r. destruct (k =? 0)%nat; reflexivity.
  - rewrite map_last, !truthy_snoc, andb_false_r, last_last, removelast_last.
    unfold Py2.or_else, Py2.and_then, Py2.getitem_last, Py2.pop. simpl orb.
    cbv iota.
    destruct (map Py2.code l ++ [Py2.code x])%list eqn:E;
      [destruct (map Py2.code l); discriminate|].
    rewrite <- E, last_last, removelast_last. simpl. rewrite ueqb_code.
    destruct (x =? "..").
    + rewrite map_app, map_last. reflexivity.
    + reflexivity.
Qed.

Lemma norm_loop_code (k : nat) (comps nc : list string) :
  Py2.norm_loop k (map Py2.code nc) (map Py2.code comps)
  = inr (map Py2.code (fold_left (norm_step k) comps nc)).
Proof.
  revert nc. induction comps as [|c comps IH]; intros nc; [reflexivity|].
  simpl. rewrite norm_step_code. simpl. apply IH.
Qed.

Lemma normpath_code (path : string) :
  Py2.vfs_normpath (Py2.lit path) = inr (Py2.lit (vfs_normpath path)).
Proof.
  unfold Py2.vfs_normpath, vfs_normpath, Py2.lit. simpl Py2.units.
  simpl Py2.kind_of. rewrite ueqb_code.
  destruct (path =? ""); [reflexivity|].
  rewrite initial_slashes_code, usplit_code.
  change (@nil (list N)) with (map Py2.code []).
  rewrite norm_loop_code. simpl Py2.bind.
  rewrite ujoin_code, umul_code, <- code_app.
  fold (new_comps_of path).
  replace (if negb (initial_slashes_of path =? 0)%nat
           then Py2.code (str_mul "/" (initial_slashes_of path)
                          ++ String.concat "/" (new_comps_of path))
           else Py2.code (String.concat "/" (new_comps_of path)))
    with (Py2.code (restored path))
    by (unfold restored, slash;
        destruct (negb (initial_slashes_of path =? 0)%nat); reflexivity).
  change (@nil N) with (Py2.code ""). rewrite ueqb_code.
  unfold str_or, Py2.ret. destruct (restored path =? ""); reflexivity.
Qed.

Lemma add_code (x y : string) :
  Py2.add (Py2.lit x) (Py2.lit y) = inr (Py2.lit (x ++ y)).
Proof. unfold Py2.add, Py2.lit. simpl. rewrite code_app. reflexivity. Qed.

Lemma construct_step_code (path b : string) :
  Py2.construct_step (Py2.lit path) (Py2.lit b)
  = inr (Py2.lit (construct_step path b)).
Proof.
  unfold Py2.construct_step, construct_step. simpl Py2.units.
  rewrite ustartswith_code, ueqb_code, uendswith_code.
  destruct (startswith b "/"); [reflexivity|].
  destruct ((path =? "") || endswith path "/").
  - apply add_code.
  - rewrite add_code. simpl. apply add_code.
Qed.

Lemma construct_loop_code (p : list string) (path : string) :
  Py2.construct_loop (Py2.lit path) (map Py2.lit p)
  = inr (Py2.lit (construct_loop path p)).
Proof.
  revert path. induction p as [|b p IH]; intros path; [reflexivity|].
  simpl. rewrite construct_step_code. simpl. apply IH.
Qed.

Lemma norm_step_total (k : nat) (nc : list (list N)) (c : list N) :
  exists nc', Py2.norm_step k nc c = inr nc'.
Proof.
  unfold Py2.norm_step.
  destruct (Py2.ueqb c (Py2.code "") || Py2.ueqb c (Py2.code "."));
    [eexists; reflexivity|].
  destruct (negb (Py2.ueqb c (Py2.code ".."))); [eexists; reflexivity|].
  destruct nc as [|x nc].
  - simpl. destruct (k =? 0)%nat; eexists; reflexivity.
  - unfold Py2.getitem_last, Py2.pop. cbv iota.
    generalize (last (x :: nc) []), (removelast (x :: nc)). intros s r.
    rewrite andb_false_r. simpl.
    destruct (Py2.ueqb s (Py2.code "..")); eexists; reflexivity.
Qed.

Lemma norm_loop_total (k : nat) (comps nc : list (list N)) :
  exists nc', Py2.norm_loop k nc comps = inr nc'.
Proof.
  revert nc. induction comps as [|c comps IH]; intros nc; simpl.
  - eexists. reflexivity.
  - destruct (norm_step_total k nc c) as [nc' ->]. simpl. apply IH.
Qed.

Lemma normpath_total (path : Py2.pystr) :
  exists r, Py2.vfs_normpath path = inr r /\
            Py2.kind_of r = Py2.kind_of path.
Proof.
  unfold Py2.vfs_normpath.
  destruct (Py2.ueqb (Py2.units path) (Py2.code ""));
    [eexists; split; reflexivity|].
  destruct (norm_loop_total (Py2.initial_slashes_of (Py2.units path))
              (Py2.usplit (N_of_ascii "/") (Py2.units path)) [])
    as [nc ->].
  simpl Py2.bind.
  match goal with
  | |- context [if Py2.ueqb ?u [] then _ else _] =>
      destruct (Py2.ueqb u [])
  end; eexists; split; reflexivity.
Qed.

Lemma add_same_kind (x y : Py2.pystr) :
  Py2.kind_of y = Py2.kind_of x ->
  exists r, Py2.add x y = inr r /\ Py2.kind_of r = Py2.kind_of x.
Proof.
  intros H. unfold Py2.add. rewrite H.
  destruct (Py2.kind_of x); eexists; split; reflexivity.
Qed.

Lemma add_safe (x y : Py2.pystr) :
  Py2.ascii_or_unicode x = true -> Py2.ascii_or_unicode y = true ->
  exists r, Py2.add x y = inr r /\ Py2.ascii_or_unicode r = true.
Proof.
  unfold Py2.add, Py2.ascii_or_unicode, Py2.decode_ascii.
  destruct (Py2.kind_of x), (Py2.kind_of y); intros Hx Hy;
    rewrite ?Hx, ?Hy; eexists; (split; [reflexivity|]); simpl;
    try reflexivity.
  unfold Py2.all_ascii in *. rewrite forallb_app, Hx, Hy. reflexivity.
Qed.

Lemma add_slash (b : Py2.pystr) :
  exists t, Py2.add (Py2.lit "/") b = inr t /\
            Py2.kind_of t = Py2.kind_of b /\
            (Py2.ascii_or_unicode b = true ->
             Py2.ascii_or_unicode t = true).
Proof.
  unfold Py2.add, Py2.ascii_or_unicode. simpl Py2.kind_of.
  destruct (Py2.kind_of b); eexists;
    (split; [reflexivity|]); (split; [reflexivity|]); simpl; auto.
Qed.

Lemma construct_step_same_kind (path b : Py2.pystr) :
  Py2.kind_of b = Py2.kind_of path ->
  exists r, Py2.construct_step path b = inr r /\
            Py2.kind_of r = Py2.kind_of path.
Proof.
  intros H. unfold Py2.construct_step.
  destruct (Py2.ustartswith (Py2.units b) (Py2.code "/"));
    [exists b; auto|].
  destruct (Py2.ueqb (Py2.units path) (Py2.code "")
            || Py2.uendswith (Py2.units path) (Py2.code "/")).
  - apply add_same_kind. exact H.
  - destruct (add_slash b) as (t & -> & Ht & _). simpl.
    apply add_same_kind. congruence.
Qed.

Lemma construct_step_safe (path b : Py2.pystr) :
  Py2.ascii_or_unicode path = true -> Py2.ascii_or_unicode b = true ->
  exists r, Py2.construct_step path b = inr r /\
            Py2.ascii_or_unicode r = true.
Proof.
  intros Hp Hb. unfold Py2.construct_step.
  destruct (Py2.ustartswith (Py2.units b) (Py2.code "/"));
    [exists b; auto|].
  destruct (Py2.ueqb (Py2.units path) (Py2.code "")
            || Py2.uendswith (Py2.units path) (Py2.code "/")).
  - apply add_safe; assumption.
  - destruct (add_slash b) as (t & -> & _ & Ht). simpl.
    apply add_safe; auto.
Qed.

Lemma construct_loop_same_kind (p : list Py2.pystr) (path : Py2.pystr) :
  forallb (Py2.of_kind (Py2.kind_of path)) p = true ->
  exists r, Py2.construct_loop path p = inr r.
Proof.
  revert path. induction p as [|b p IH]; intros path H; simpl.
  - eexists. reflexivity.
  - simpl in H. apply andb_true_iff in H as [Hb Hp].
    assert (Hk : Py2.kind_of b = Py2.kind_of path).
    { unfold Py2.of_kind, Py2.kind_eqb in Hb.
      destruct (Py2.kind_of b), (Py2.kind_of path);
        reflexivity || discriminate. }
    destruct (construct_step_same_kind path b Hk) as (r & -> & Hr). simpl.
    apply IH. rewrite Hr. exact Hp.
Qed.

Lemma construct_loop_safe (p : list Py2.pystr) (path : Py2.pystr) :
  forallb Py2.ascii_or_unicode (path :: p) = true ->
  exists r, Py2.construct_loop path p = inr r.
Proof.
  revert path. induction p as [|b p IH]; intros path H; simpl.
  - eexists. reflexivity.
  - simpl in H. apply andb_true_iff in H as [Hpath H].
    apply andb_true_iff in H as [Hb Hp].
    destruct (construct_step_safe path b Hpath Hb) as (r & -> & Hr). simpl.
    apply IH. simpl. rewrite Hr, Hp. reflexivity.
Qed.




(** * Further properties of the path helpers *)

Lemma construct_loop_app (a : string) (p q : list string) :
  construct_loop a (p ++ q) = construct_loop (construct_loop a p) q.
Proof.
  revert a. induction p as [|b p IH]; intros a; simpl; [reflexivity|].
  apply IH.
Qed.



(** ** What the normalizer keeps of a path *)

Lemma split_on_app_sep (sep : ascii) (x y : string) :
  split_on sep (x ++ String sep y) = (split_on sep x ++ split_on sep y)%list.
Proof.
  induction x as [|c x IH]; simpl.
  - rewrite Ascii.eqb_refl. reflexivity.
  - rewrite IH. destruct (Ascii.eqb c sep); [reflexivity|].
    pose proof (split_on_not_nil sep x) as Hne.
    destruct (split_on sep x) as [|h t]; [congruence | reflexivity].
Qed.

Lemma count_leading_app (c : ascii) (x y : string) :
  count_leading c (x ++ y) =
  if (count_leading c x =? String.length x)%nat
  then String.length x + count_leading c y
  else count_leading c x.
Proof.
  induction x as [|a x IH]; simpl; [reflexivity|].
  destruct (Ascii.eqb a c); [|reflexivity].
  rewrite IH. simpl.
  destruct (count_leading c x =? String.length x)%nat; reflexivity.
Qed.

Lemma count_leading_le (c : ascii) (x : string) :
  count_leading c x <= String.length x.
Proof.
  induction x as [|a x IH]; simpl; [lia|].
  destruct (Ascii.eqb a c); lia.
Qed.

Lemma relative_count (b : string) :
  startswith b "/" = false -> count_leading "/" b = 0.
Proof.
  rewrite startswith_slash. destruct (count_leading "/" b); [reflexivity|].
  discriminate.
Qed.

Lemma initial_slashes_app (a b : string) :
  startswith b "/" = false ->
  initial_slashes_of (a ++ b) = initial_slashes_of a.
Proof.
  intros Hb. rewrite !initial_slashes_count, count_leading_app.
  rewrite (relative_count b Hb), Nat.add_0_r.
  destruct (count_leading "/" a =? String.length a)%nat eqn:E; [|reflexivity].
  apply Nat.eqb_eq in E. rewrite E. reflexivity.
Qed.

Lemma ends_with_slash_inv (a : string) :
  Spec.ends_with_slash a = true -> exists a', a = a' ++ "/".
Proof.
  induction a as [|c a IH]; [discriminate|].
  destruct a as [|d a].
  - simpl. intros H. apply Ascii.eqb_eq in H. subst c.
    exists "". reflexivity.
  - intros H.
    change (Spec.ends_with_slash (String d a) = true) in H.
    destruct (IH H) as [a' E]. exists (String c a'). simpl. rewrite <- E.
    reflexivity.
Qed.

Lemma not_all_slashes (a : string) :
  a <> "" -> Spec.ends_with_slash a = false ->
  (count_leading "/" a =? String.length a)%nat = false.
Proof.
  intros Hne H. apply Nat.eqb_neq.
  induction a as [|c a IH]; [congruence|].
  destruct a as [|d a].
  - simpl in *. rewrite H. discriminate.
  - change (Spec.ends_with_slash (String d a) = false) in H.
    assert (Hd : String d a <> "") by discriminate.
    specialize (IH Hd H).
    pose proof (count_leading_le "/" (String d a)) as Hle.
    change (count_leading "/" (String c (String d a)))
      with (if Ascii.eqb c "/" then S (count_leading "/" (String d a)) else 0).
    change (String.length (String c (String d a)))
      with (S (String.length (String d a))).
    destruct (Ascii.eqb c "/"); lia.
Qed.

Lemma initial_slashes_app_sep (a b : string) :
  a <> "" -> Spec.ends_with_slash a = false ->
  initial_slashes_of (a ++ "/" ++ b) = initial_slashes_of a.
Proof.
  intros Hne H. rewrite !initial_slashes_count, count_leading_app.
  rewrite (not_all_slashes a Hne H). reflexivity.
Qed.

Lemma fold_split_app_sep (k : nat) (x y : string) (acc : list string) :
  fold_left (norm_step k) (split_on "/" (x ++ "/" ++ y)) acc =
  fold_left (norm_step k) (split_on "/" y)
    (fold_left (norm_step k) (split_on "/" x) acc).
Proof.
  change (x ++ "/" ++ y) with (x ++ String "/" y).
  rewrite split_on_app_sep, fold_left_app. reflexivity.
Qed.

Lemma fold_split_trailing (k : nat) (x : string) (acc : list string) :
  fold_left (norm_step k) (split_on "/" (x ++ "/")) acc =
  fold_left (norm_step k) (split_on "/" x) acc.
Proof.
  change (x ++ "/") with (x ++ "/" ++ "").
  rewrite fold_split_app_sep. reflexivity.
Qed.

(** Joining a relative segment: [initial_slashes] stays, and the loop goes
    on over the components of the segment from the base's [new_comps]. *)
Lemma construct_step_relative (a b : string) :
  startswith b "/" = false ->
  initial_slashes_of (construct_step a b) = initial_slashes_of a /\
  new_comps_of (construct_step a b) =
  fold_left (norm_step (initial_slashes_of a)) (split_on "/" b)
    (new_comps_of a).
Proof.
  intros Hb. unfold construct_step. rewrite Hb.
  destruct (string_dec a "") as [->|Hne].
  - simpl. unfold new_comps_of.
    pose proof (initial_slashes_app "" b Hb) as E. simpl in E.
    rewrite E. split; reflexivity.
  - apply String.eqb_neq in Hne as Hne'. rewrite Hne'. simpl orb.
    rewrite endswith_slash_spec.
    destruct (Spec.ends_with_slash a) eqn:He.
    + split; [apply initial_slashes_app; assumption|].
      unfold new_comps_of. rewrite initial_slashes_app by assumption.
      destruct (ends_with_slash_inv a He) as [a' ->].
      rewrite string_app_assoc, fold_split_app_sep, fold_split_trailing.
      reflexivity.
    + split; [apply initial_slashes_app_sep; assumption|].
      unfold new_comps_of. rewrite initial_slashes_app_sep by assumption.
      apply fold_split_app_sep.
Qed.

Lemma normpath_render (x : string) :
  vfs_normpath x = render (initial_slashes_of x) (new_comps_of x).
Proof.
  destruct (string_dec x "") as [->|Hne]; [reflexivity|].
  rewrite normpath_nonempty, restored_eq by assumption. reflexivity.
Qed.

(** The result has the [initial_slashes] and the [new_comps] of the
    input. *)
Lemma normpath_state (x : string) :
  initial_slashes_of (vfs_normpath x) = initial_slashes_of x /\
  new_comps_of (vfs_normpath x) = new_comps_of x.
Proof.
  rewrite normpath_render. unfold render, str_or, slash.
  pose proof (new_comps_normal x) as Hn.
  pose proof (normal_segments _ _ Hn) as Hseg.
  destruct (str_mul "/" (initial_slashes_of x)
            ++ String.concat "/" (new_comps_of x) =? "") eqn:E.
  - apply String.eqb_eq in E.
    destruct (initial_slashes_of x) as [|k]; [|discriminate].
    simpl in E. rewrite (concat_empty _ Hseg E). split; reflexivity.
  - apply normal_form_fixed; [apply initial_slashes_le | assumption].
Qed.

(** Running the loop over components from any start is the same as
    running it over their relative normal form. *)
Lemma fold_norm_step_prenormalized (k : nat) (comps acc : list string) :
  Forall (fun c => contains_char "/" c = false) comps ->
  fold_left (norm_step k) comps acc =
  fold_left (norm_step k) (fold_left (norm_step 0) comps []) acc.
Proof.
  induction comps as [|c cs IH] using rev_ind; intros Hall; [reflexivity|].
  apply Forall_app in Hall as [Hcs Hc].
  inversion Hc as [|? ? Hfree _]; subst.
  specialize (IH Hcs).
  pose proof (fold_norm_step_normal 0 cs [] Hcs (normal_nil 0)) as Hn.
  rewrite !fold_left_app. simpl. rewrite IH.
  set (L := fold_left (norm_step 0) cs []) in *.
  destruct (comp_cases c Hfree) as [E | [E | [E | Hp]]].
  - rewrite !norm_step_skip by auto. reflexivity.
  - rewrite !norm_step_skip by auto. reflexivity.
  - subst c. destruct Hn as (n & rest & HL & Hrest & _).
    destruct (snoc_cases rest) as [-> | (rest' & x & ->)].
    + rewrite app_nil_r in HL. rewrite HL, norm_step_dotdot_run.
      rewrite <- repeat_snoc, fold_left_app. reflexivity.
    + rewrite HL, app_assoc, norm_step_dotdot_snoc.
      apply Forall_app in Hrest as [_ Hx].
      inversion Hx as [|? ? Hpx _]; subst.
      pose proof Hpx as [_ Hne]. apply String.eqb_neq in Hne. rewrite Hne.
      rewrite fold_left_app. simpl.
      rewrite (norm_step_plain k _ x Hpx), norm_step_dotdot_snoc, Hne.
      reflexivity.
  - rewrite (norm_step_plain 0 L c Hp), fold_left_app. reflexivity.
Qed.

Lemma relative_initial_slashes (b : string) :
  startswith b "/" = false -> initial_slashes_of b = 0.
Proof.
  intros H. pose proof (initial_slashes_zero b) as Z. rewrite H in Z.
  apply Nat.eqb_eq in Z. exact Z.
Qed.

Lemma normpath_startswith (x : string) :
  startswith (vfs_normpath x) "/" = startswith x "/".
Proof.
  rewrite startswith_slash, normpath_leading, initial_slashes_zero.
  apply negb_involutive.
Qed.

(** The loop over the components of a normalized relative segment does
    what it does over the components of the segment. *)
Lemma fold_split_normpath (k : nat) (b : string) (acc : list string) :
  startswith b "/" = false ->
  fold_left (norm_step k) (split_on "/" (vfs_normpath b)) acc =
  fold_left (norm_step k) (split_on "/" b) acc.
Proof.
  intros Hb.
  rewrite (fold_norm_step_prenormalized k (split_on "/" b))
    by apply split_on_free.
  pose proof (relative_initial_slashes b Hb) as Hk.
  pose proof (new_comps_normal b) as Hn.
  pose proof (normal_segments _ _ Hn) as Hseg.
  rewrite normpath_render. unfold new_comps_of in *. rewrite Hk in *.
  set (L := fold_left (norm_step 0) (split_on "/" b) []) in *.
  unfold render, slash. simpl str_mul. simpl append.
  destruct L as [|x L]; [reflexivity|].
  rewrite str_or_nonempty.
  - rewrite (split_on_concat "/")
      by (try discriminate; apply segments_free; assumption).
    reflexivity.
  - intros E. apply (concat_empty _ Hseg) in E. discriminate.
Qed.

(** Two bases with the same [initial_slashes] and [new_comps], joined with
    a segment or with its normal form, still agree on both. *)
Lemma construct_step_state (x y b : string) :
  initial_slashes_of x = initial_slashes_of y ->
  new_comps_of x = new_comps_of y ->
  initial_slashes_of (construct_step x b) =
  initial_slashes_of (construct_step y (vfs_normpath b)) /\
  new_comps_of (construct_step x b) =
  new_comps_of (construct_step y (vfs_normpath b)).
Proof.
  intros Hk Hl.
  destruct (startswith b "/") eqn:Hb.
  - unfold construct_step. rewrite normpath_startswith, Hb.
    destruct (normpath_state b) as [E1 E2]. split; congruence.
  - assert (Hnb : startswith (vfs_normpath b) "/" = false)
      by (rewrite normpath_startswith; exact Hb).
    destruct (construct_step_relative x b Hb) as [-> ->].
    destruct (construct_step_relative y (vfs_normpath b) Hnb) as [-> ->].
    split; [exact Hk|].
    rewrite fold_split_normpath by assumption. rewrite Hk, Hl. reflexivity.
Qed.

Lemma construct_loop_state (p : list string) (x y : string) :
  initial_slashes_of x = initial_slashes_of y ->
  new_comps_of x = new_comps_of y ->
  vfs_normpath (construct_loop x p) =
  vfs_normpath (construct_loop y (map vfs_normpath p)).
Proof.
  revert x y. induction p as [|b p IH]; intros x y Hk Hl; simpl.
  - rewrite !normpath_render, Hk, Hl. reflexivity.
  - destruct (construct_step_state x y b Hk Hl) as [Hk' Hl'].
    apply IH; assumption.
Qed.


Lemma all_slashes_short (p : string) :
  count_leading "/" p = String.length p -> String.length p <= 2 ->
  p = "" \/ p = "/" \/ p = "//".
Proof.
  destruct p as [|c [|d [|e p]]]; simpl; intros H Hlen.
  - auto.
  - destruct (Ascii.eqb c "/") eqn:Ec; [|discriminate].
    apply Ascii.eqb_eq in Ec. subst. auto.
  - destruct (Ascii.eqb c "/") eqn:Ec; [|discriminate].
    destruct (Ascii.eqb d "/") eqn:Ed; [|discriminate].
    apply Ascii.eqb_eq in Ec, Ed. subst. auto.
  - lia.
Qed.

(** X4: A slash at the end of a path is ignored, except after the empty path
    and after the paths ["/"] and ["//"], where it changes the number of
    leading slashes. *)
Theorem normpath_trailing_slash (p : string) :
  p <> "" -> p <> "/" -> p <> "//" ->
  vfs_normpath (p ++ "/") = vfs_normpath p.
Proof.
  intros H0 H1 H2.
  assert (Hk : initial_slashes_of (p ++ "/") = initial_slashes_of p).
  { rewrite !initial_slashes_count, count_leading_app.
    destruct (count_leading "/" p =? String.length p)%nat eqn:E;
      [|reflexivity].
    apply Nat.eqb_eq in E. rewrite E.
    destruct (String.length p) as [|[|[|n]]] eqn:El;
      try (exfalso; destruct (all_slashes_short p) as [?|[?|?]];
           [rewrite E; symmetry; exact El | lia | | | ]; contradiction).
    destruct n; reflexivity. }
  rewrite !normpath_render, Hk. unfold new_comps_of.
  rewrite Hk, fold_split_trailing. reflexivity.
Qed.

Lemma normpath_trailing_slash_witness :
  "a/../b" <> "" /\ "a/../b" <> "/" /\ "a/../b" <> "//" /\
  vfs_normpath ("a/../b" ++ "/") = vfs_normpath "a/../b".
Proof.
  split; [discriminate|]. split; [discriminate|]. split; [discriminate|].
  apply (normpath_trailing_slash "a/../b"); discriminate.
Defined.

Lemma ends_with_slash_app (w x : string) :
  x <> "" -> Spec.ends_with_slash (w ++ x) = Spec.ends_with_slash x.
Proof.
  intros Hx. induction w as [|c w IH]; [reflexivity|].
  simpl append. destruct (w ++ x) as [|d r] eqn:E.
  - destruct w; [simpl in E; congruence | discriminate].
  - exact IH.
Qed.

Lemma ends_with_slash_free (x : string) :
  contains_char "/" x = false -> Spec.ends_with_slash x = false.
Proof.
  induction x as [|c x IH]; [reflexivity|].
  simpl. intros H. apply orb_false_iff in H as [Hc Hx].
  destruct x; [exact Hc | exact (IH Hx)].
Qed.

Lemma concat_snoc (sep : string) (l : list string) (x : string) :
  exists w, String.concat sep (l ++ [x]) = w ++ x.
Proof.
  induction l as [|y l [w IH]].
  - exists "". reflexivity.
  - destruct l as [|z l].
    + exists (y ++ sep). simpl. symmetry. apply string_app_assoc.
    + change (String.concat sep ((y :: z :: l) ++ [x]))
        with (y ++ sep ++ String.concat sep ((z :: l) ++ [x])).
      rewrite IH. exists (y ++ sep ++ w).
      rewrite !string_app_assoc. reflexivity.
Qed.

Lemma render_trailing (k : nat) (l : list string) :
  Forall segment l -> l <> [] ->
  Spec.ends_with_slash (render k l) = false /\ render k l <> "/" /\
  render k l <> "//".
Proof.
  intros Hseg Hne.
  destruct (snoc_cases l) as [-> | (l' & x & ->)]; [congruence|].
  apply Forall_app in Hseg as [_ Hx].
  inversion Hx as [|? ? (Hx0 & _ & Hfree) _]; subst.
  destruct (concat_snoc slash l' x) as [w E].
  assert (Hr : render k (l' ++ [x]) = (str_mul slash k ++ w) ++ x).
  { unfold render. rewrite E, <- string_app_assoc.
    apply str_or_nonempty.
    destruct (str_mul slash k ++ w); destruct x; simpl; congruence. }
  assert (He : Spec.ends_with_slash (render k (l' ++ [x])) = false).
  { rewrite Hr, ends_with_slash_app by assumption.
    apply ends_with_slash_free; assumption. }
  split; [exact He|]. split; intros E'; rewrite E' in He; discriminate.
Qed.

(** X5: The result ends with a slash only when it is ["/"] or ["//"]. *)
Theorem normpath_no_trailing_slash (p : string) :
  endswith (vfs_normpath p) "/" =
  (vfs_normpath p =? "/") || (vfs_normpath p =? "//").
Proof.
  rewrite endswith_slash_spec, normpath_render.
  pose proof (normal_segments _ _ (new_comps_normal p)) as Hseg.
  pose proof (initial_slashes_le p) as Hk.
  destruct (new_comps_of p) as [|x l] eqn:El.
  - destruct (initial_slashes_of p) as [|[|[|k]]]; [reflexivity .. | lia].
  - destruct (render_trailing (initial_slashes_of p) (x :: l) Hseg)
      as (-> & H1 & H2); [discriminate|].
    apply String.eqb_neq in H1, H2. rewrite H1, H2. reflexivity.
Qed.

(** * [JSONEncoderForHTML] *)

Lemma string_app_nil_r (s : string) : s ++ "" = s.
Proof. induction s as [|c s IH]; simpl; [reflexivity | rewrite IH; reflexivity]. Qed.

Lemma contains_char_app (c : ascii) (x y : string) :
  contains_char c (x ++ y) = contains_char c x || contains_char c y.
Proof.
  induction x as [|a x IH]; simpl; [reflexivity|].
  rewrite IH. apply orb_assoc.
Qed.

Lemma replace_char_app (old : ascii) (new x y : string) :
  replace_char old new (x ++ y) =
  replace_char old new x ++ replace_char old new y.
Proof.
  induction x as [|a x IH]; simpl; [reflexivity|].
  rewrite IH. destruct (Ascii.eqb a old); [|reflexivity].
  symmetry. apply string_app_assoc.
Qed.

Lemma replace_char_absent (old : ascii) (new s : string) :
  contains_char old s = false -> replace_char old new s = s.
Proof.
  induction s as [|a s IH]; simpl; [reflexivity|].
  intros H. apply orb_false_iff in H as [Ha Hs].
  rewrite Ha, (IH Hs). reflexivity.
Qed.

(** Replacing [old] keeps a character [c] out of the string when [c] is
    neither in the string (other than as [old]) nor in [new]. *)
Lemma replace_char_free (c old : ascii) (new s : string) :
  contains_char c new = false ->
  (contains_char c s = false \/ c = old) ->
  contains_char c (replace_char old new s) = false.
Proof.
  intros Hnew Hs. induction s as [|a s IH]; simpl; [reflexivity|].
  assert (Hs' : contains_char c s = false \/ c = old).
  { destruct Hs as [Hs | Hs]; [|auto].
    simpl in Hs. apply orb_false_iff in Hs as [_ Hs]. auto. }
  destruct (Ascii.eqb a old) eqn:Ea.
  - rewrite contains_char_app, Hnew, (IH Hs'). reflexivity.
  - simpl. rewrite (IH Hs'), orb_false_r.
    destruct Hs as [Hs | ->]; [|exact Ea].
    simpl in Hs. apply orb_false_iff in Hs as [Ha _]. exact Ha.
Qed.

Lemma escape_free (chunk : string) :
  contains_char "&" (JSONEncoderForHTML.escape chunk) = false /\
  contains_char "<" (JSONEncoderForHTML.escape chunk) = false /\
  contains_char ">" (JSONEncoderForHTML.escape chunk) = false.
Proof.
  unfold JSONEncoderForHTML.escape.
  assert (H1 : contains_char "&" (replace_char "&" "\u0026" chunk) = false)
    by (apply replace_char_free; auto).
  assert (H2 : contains_char "&"
                 (replace_char "<" "\u003c"
                    (replace_char "&" "\u0026" chunk)) = false)
    by (apply replace_char_free; auto).
  assert (H3 : contains_char "<"
                 (replace_char "<" "\u003c"
                    (replace_char "&" "\u0026" chunk)) = false)
    by (apply replace_char_free; auto).
  repeat split; apply replace_char_free; auto.
Qed.

Lemma escape_app (x y : string) :
  JSONEncoderForHTML.escape (x ++ y) =
  JSONEncoderForHTML.escape x ++ JSONEncoderForHTML.escape y.
Proof.
  unfold JSONEncoderForHTML.escape. rewrite !replace_char_app. reflexivity.
Qed.

Lemma concat_nil_sep (x : string) (l : list string) :
  String.concat "" (x :: l) = x ++ String.concat "" l.
Proof.
  destruct l as [|y l]; simpl; [|reflexivity].
  symmetry. apply string_app_nil_r.
Qed.

Example json_html_encode_sample :
  JSONEncoderForHTML.encode ["{"; "<a href>"; ": "; "R&D"; "}"]
  = "{\u003ca href\u003e: R\u0026D}"
  /\ String.length (JSONEncoderForHTML.escape "<") = 6.
Proof. split; reflexivity. Qed.

(** X7: Whatever the base encoder yields, the encoded text contains none of
    the characters [&], [<] and [>]. *)
Theorem json_html_encode_safe (chunks : list string) :
  contains_char "&" (JSONEncoderForHTML.encode chunks) = false /\
  contains_char "<" (JSONEncoderForHTML.encode chunks) = false /\
  contains_char ">" (JSONEncoderForHTML.encode chunks) = false.
Proof.
  unfold JSONEncoderForHTML.encode, JSONEncoderForHTML.iterencode.
  induction chunks as [|x l (IH1 & IH2 & IH3)].
  - repeat split.
  - change (map JSONEncoderForHTML.escape (x :: l))
      with (JSONEncoderForHTML.escape x :: map JSONEncoderForHTML.escape l).
    rewrite concat_nil_sep, !contains_char_app, IH1, IH2, IH3.
    destruct (escape_free x) as (-> & -> & ->). repeat split.
Qed.

(** X8: The encoded text does not depend on how the base encoder cuts its
    output into chunks: it is the escaped form of the joined chunks. *)
Theorem json_html_encode_chunks (chunks : list string) :
  JSONEncoderForHTML.encode chunks =
  JSONEncoderForHTML.escape (String.concat "" chunks).
Proof.
  unfold JSONEncoderForHTML.encode, JSONEncoderForHTML.iterencode.
  induction chunks as [|x l IH]; [reflexivity|].
  change (map JSONEncoderForHTML.escape (x :: l))
    with (JSONEncoderForHTML.escape x :: map JSONEncoderForHTML.escape l).
  rewrite !concat_nil_sep, IH, escape_app. reflexivity.
Qed.

(** X9: Escaping is idempotent: text that went through [iterencode] once is
    left unchanged by a second pass. *)
Theorem json_html_escape_idempotent (chunk : string) :
  JSONEncoderForHTML.escape (JSONEncoderForHTML.escape chunk) =
  JSONEncoderForHTML.escape chunk.
Proof.
  destruct (escape_free chunk) as (H1 & H2 & H3).
  generalize dependent (JSONEncoderForHTML.escape chunk). intros s H1 H2 H3.
  unfold JSONEncoderForHTML.escape.
  rewrite (replace_char_absent "&") by assumption.
  rewrite (replace_char_absent "<") by assumption.
  apply replace_char_absent; assumption.
Qed.

(** * [recursively_remove_key] *)

Lemma pyobj_induction (P : pyobj -> Prop) :
  (forall items, Forall P items -> P (PyList items)) ->
  (forall items, Forall (fun kv => P (snd kv)) items -> P (PyDict items)) ->
  (forall r, P (PyOther r)) ->
  forall obj, P obj.
Proof.
  intros HL HD HO. fix IH 1. intros [items | items | r].
  - apply HL. induction items as [|x items IHi]; constructor.
    + apply IH.
    + exact IHi.
  - apply HD. induction items as [|[k v] items IHi]; constructor.
    + apply IH.
    + exact IHi.
  - apply HO.
Qed.

(** The items of a dict after the call. *)
Lemma remove_key_dict (items : list (string * pyobj)) (k : string) :
  recursively_remove_key (PyDict items) k =
  PyDict (map (fun kv => (fst kv, recursively_remove_key (snd kv) k))
            (filter (fun kv => negb (fst kv =? k)) items)).
Proof.
  simpl. f_equal. induction items as [|[key v] items IH]; [reflexivity|].
  simpl. destruct (key =? k); simpl; rewrite IH; reflexivity.
Qed.

Example remove_key_sample :
  recursively_remove_key
    (PyDict [("id", PyOther "1");
             ("items", PyList [PyDict [("id", PyOther "2");
                                       ("name", PyOther "n")];
                               PyOther "x"])])
    "id"
  = PyDict [("items", PyList [PyDict [("name", PyOther "n")]; PyOther "x"])].
Proof. reflexivity. Qed.

(** X10: After the call no dict inside the value has the key. *)
Theorem remove_key_removes (obj : pyobj) (k : string) :
  has_key k (recursively_remove_key obj k) = false.
Proof.
  induction obj as [items IH | items IH | r] using pyobj_induction.
  - simpl. induction IH as [|x items Hx _ IHi]; [reflexivity|].
    simpl. rewrite Hx. exact IHi.
  - rewrite remove_key_dict. simpl.
    induction IH as [|[key v] items Hx _ IHi]; [reflexivity|].
    simpl in *. destruct (key =? k) eqn:E; simpl; [exact IHi|].
    rewrite E, Hx. exact IHi.
  - reflexivity.
Qed.

(** X11: A value in which no dict has the key is left as it is. *)
Theorem remove_key_absent (obj : pyobj) (k : string) :
  has_key k obj = false -> recursively_remove_key obj k = obj.
Proof.
  induction obj as [items IH | items IH | r] using pyobj_induction;
    intros H.
  - simpl in *. f_equal.
    induction IH as [|x items Hx _ IHi]; [reflexivity|].
    simpl in *. apply orb_false_iff in H as [H1 H2].
    rewrite (Hx H1), (IHi H2). reflexivity.
  - rewrite remove_key_dict. simpl in H. f_equal.
    induction IH as [|[key v] items Hx _ IHi]; [reflexivity|].
    simpl in *. apply orb_false_iff in H as [H1 H2].
    apply orb_false_iff in H1 as [H0 H1].
    rewrite H0. simpl. rewrite (Hx H1), (IHi H2). reflexivity.
  - reflexivity.
Qed.

Lemma remove_key_absent_witness :
  has_key "id"
    (PyDict [("a", PyList [PyDict [("b", PyOther "1")]; PyOther "x"])])
  = false /\
  recursively_remove_key
    (PyDict [("a", PyList [PyDict [("b", PyOther "1")]; PyOther "x"])]) "id"
  = PyDict [("a", PyList [PyDict [("b", PyOther "1")]; PyOther "x"])].
Proof.
  split; [reflexivity|].
  apply (remove_key_absent
           (PyDict [("a", PyList [PyDict [("b", PyOther "1")]; PyOther "x"])])
           "id").
  reflexivity.
Defined.

(** X12: Removing two keys gives the same value in either order. *)
Theorem remove_key_commutes (obj : pyobj) (k1 k2 : string) :
  recursively_remove_key (recursively_remove_key obj k1) k2 =
  recursively_remove_key (recursively_remove_key obj k2) k1.
Proof.
  induction obj as [items IH | items IH | r] using pyobj_induction.
  - simpl. f_equal. rewrite !map_map.
    induction IH as [|x items Hx _ IHi]; [reflexivity|].
    simpl. rewrite Hx, IHi. reflexivity.
  - rewrite !remove_key_dict. f_equal.
    induction IH as [|[key v] items Hx _ IHi]; [reflexivity|].
    simpl in *.
    destruct (key =? k1) eqn:E1, (key =? k2) eqn:E2; simpl;
      rewrite ?E1, ?E2; simpl; rewrite ?Hx, IHi; reflexivity.
  - reflexivity.
Qed.

(** * [get_exploration_components_from_zip] *)

Lemma zip_loop_some (read : string -> ZipComponents.library string)
    (names : list string) (y : string) (assets : list (string * string))
    (st : ZipComponents.loop_state) :
  ZipComponents.loop read names (Some y, assets) = inr st ->
  names = [] /\ st = (Some y, assets).
Proof.
  destruct names as [|n names]; simpl.
  - intros H. inversion H. auto.
  - destruct (startswith n "assets/"); [|discriminate].
    destruct (ZipComponents.lift (read n)); discriminate.
Qed.

Lemma zip_loop_body_asset (read : string -> ZipComponents.library string)
    (st st' : ZipComponents.loop_state) (n : string) :
  startswith n "assets/" = true ->
  ZipComponents.loop_body read st n <> inr st'.
Proof.
  intros Ha. destruct st as [y a]. simpl. rewrite Ha.
  destruct (ZipComponents.lift (read n)); discriminate.
Qed.

(** X13: The call returns exactly when the library opens the archive, the
    archive holds a single file, whose name does not start with [assets/]
    and ends with [.yaml], and the library can read that file; the result
    is then the file's content with an empty list of assets. *)
Theorem zip_components_returns
    (zf : ZipComponents.library ZipComponents.archive) (y : string)
    (assets : list (string * string)) :
  ZipComponents.get_exploration_components_from_zip zf = inr (y, assets)
  <->
  exists n read,
    zf = inr ([n], read) /\ startswith n "assets/" = false /\
    endswith n ".yaml" = true /\ read n = inr y /\ assets = [].
Proof.
  unfold ZipComponents.get_exploration_components_from_zip. split.
  - destruct zf as [what | [names read]]; simpl; [discriminate|].
    destruct names as [|n names]; simpl; [discriminate|].
    destruct (startswith n "assets/") eqn:Ea.
    { destruct (ZipComponents.lift (read n)); discriminate. }
    destruct (endswith n ".yaml") eqn:Ey; simpl; [|discriminate].
    destruct (read n) as [what | c] eqn:Er; simpl; [discriminate|].
    destruct (ZipComponents.loop read names (Some c, []))
      as [e | [[y'|] a']] eqn:El; try discriminate.
    intros H. inversion H; subst.
    apply zip_loop_some in El as [-> E]. inversion E; subst.
    exists n, read. auto.
  - intros (n & read & -> & Ea & Ey & Er & ->). simpl.
    rewrite Ea, Ey, Er. reflexivity.
Qed.

Lemma zip_components_returns_witness :
  ZipComponents.get_exploration_components_from_zip
    (inr (["main.yaml"], fun _ => inr "title: t"))
  = inr ("title: t", []).
Proof.
  apply (proj2 (zip_components_returns
                  (inr (["main.yaml"], fun _ => inr "title: t"))
                  "title: t" [])).
  exists "main.yaml", (fun _ => inr "title: t").
  repeat split; reflexivity.
Defined.

(** X14: An archive with one [.yaml] file outside [assets/] and at least
    one file under [assets/], in any order, makes the call raise: nothing
    is returned, and when the library can read the files the exception is
    the [TypeError] of [assets_list.append]. *)
Theorem zip_components_assets_raise (pre post : list string) (y : string)
    (read : string -> ZipComponents.library string) :
  Forall (fun n => startswith n "assets/" = true) pre ->
  Forall (fun n => startswith n "assets/" = true) post ->
  (pre ++ post)%list <> [] ->
  startswith y "assets/" = false ->
  endswith y ".yaml" = true ->
  (exists e,
      ZipComponents.get_exploration_components_from_zip
        (inr ((pre ++ y :: post)%list, read)) = inl e) /\
  ((forall n, In n (pre ++ y :: post) -> exists c, read n = inr c) ->
   ZipComponents.get_exploration_components_from_zip
     (inr ((pre ++ y :: post)%list, read)) = inl ZipComponents.TypeError).
Proof.
  intros Hpre Hpost Hne Ha Hy.
  unfold ZipComponents.get_exploration_components_from_zip. simpl.
  destruct Hpre as [|n pre Hn _].
  - destruct Hpost as [|m post Hm _]; [simpl in Hne; congruence|].
    simpl. rewrite Ha, Hy. simpl. split.
    + destruct (read y) as [what | c]; simpl; [eexists; reflexivity|].
      rewrite Hm. destruct (read m); simpl; eexists; reflexivity.
    + intros Hr.
      destruct (Hr y) as [c ->]; [left; reflexivity|]. simpl.
      destruct (Hr m) as [c' E]; [right; left; reflexivity|].
      rewrite Hm, E. reflexivity.
  - simpl. rewrite Hn. split.
    + destruct (read n); simpl; eexists; reflexivity.
    + intros Hr. destruct (Hr n) as [c ->]; [left; reflexivity|].
      reflexivity.
Qed.

Lemma zip_components_assets_raise_witness :
  ZipComponents.get_exploration_components_from_zip
    (inr (([] ++ "main.yaml" :: ["assets/a.png"])%list, fun n => inr n))
  = inl ZipComponents.TypeError.
Proof.
  refine (proj2 (zip_components_assets_raise [] ["assets/a.png"] "main.yaml"
                   (fun n => inr n) _ _ _ _ _) _).
  - constructor.
  - constructor; [reflexivity | constructor].
  - discriminate.
  - reflexivity.
  - reflexivity.
  - intros n _. exists n. reflexivity.
Defined.

(** * [get_random_int] and [get_random_choice] *)

Lemma getitem_in_range {A : Type} (l : list A) (i : Z) :
  (0 <= i < Z.of_nat (length l))%Z ->
  exists x, RandomChoice.getitem l i = inr x /\ In x l.
Proof.
  intros [H0 H1]. unfold RandomChoice.getitem.
  replace (i <? 0)%Z with false by (symmetry; apply Z.ltb_ge; lia).
  replace (i <? 0)%Z with false by (symmetry; apply Z.ltb_ge; lia).
  replace (Z.of_nat (length l) <=? i)%Z with false
    by (symmetry; apply Z.leb_gt; lia).
  simpl. destruct (nth_error l (Z.to_nat i)) as [x|] eqn:E.
  - exists x. split; [reflexivity|]. eapply nth_error_In; exact E.
  - apply nth_error_None in E. lia.
Qed.

(** X15: With a generator that draws inside the range it is asked for, the
    choice from a non-empty list is an element of the list: the index is
    never out of range.  On the empty list the assertion fails. *)
Theorem random_choice_member (draw : Z -> Z) (A : Type) (alist : list A) :
  (forall n, (0 < n)%Z -> (0 <= draw n < n)%Z) ->
  match alist with
  | [] => RandomChoice.get_random_choice draw alist
          = inl RandomChoice.AssertionError
  | _ :: _ => exists x, RandomChoice.get_random_choice draw alist = inr x
                        /\ In x alist
  end.
Proof.
  intros Hdraw. destruct alist as [|a l]; [reflexivity|].
  unfold RandomChoice.get_random_choice, RandomChoice.get_random_int,
    RandomChoice.randrange, RandomChoice.len, RandomChoice.value,
    RandomChoice.isinstance_int.
  set (n := Z.of_nat (length (a :: l))).
  assert (Hn : (0 < n)%Z) by (unfold n; simpl length; lia).
  replace (0 <? n)%Z with true by (symmetry; apply Z.ltb_lt; lia).
  replace (0 <=? n)%Z with true by (symmetry; apply Z.leb_le; lia).
  replace (n <=? 0)%Z with false by (symmetry; apply Z.leb_gt; lia).
  cbv [negb andb]. apply (getitem_in_range (a :: l)). apply Hdraw. exact Hn.
Qed.

Lemma random_choice_member_witness :
  exists x, RandomChoice.get_random_choice (fun n => (n - 1)%Z)
              ["a"; "b"; "c"] = inr x
            /\ In x ["a"; "b"; "c"].
Proof.
  apply (random_choice_member (fun n => (n - 1)%Z) string ["a"; "b"; "c"]).
  intros n Hn. lia.
Defined.

(** X16: [get_random_int] returns only for a positive bound of type [int],
    with a value in [[0, upper_bound)]: a negative bound or a [long] fails
    the assertion, and the [int] 0 passes the assertion and then makes
    [randrange] raise [ValueError]. *)
Theorem random_int_range (draw : Z -> Z)
    (upper_bound : RandomChoice.pyinteger) :
  (forall n, (0 < n)%Z -> (0 <= draw n < n)%Z) ->
  match RandomChoice.get_random_int draw upper_bound with
  | inr v => RandomChoice.isinstance_int upper_bound = true /\
             (0 <= v < RandomChoice.value upper_bound)%Z
  | inl RandomChoice.ValueError => upper_bound = RandomChoice.PyInt 0
  | inl RandomChoice.AssertionError =>
      (RandomChoice.value upper_bound < 0)%Z \/
      RandomChoice.isinstance_int upper_bound = false
  | inl RandomChoice.IndexError => False
  end.
Proof.
  intros Hdraw. unfold RandomChoice.get_random_int, RandomChoice.randrange.
  destruct upper_bound as [z | z]; simpl.
  - destruct (0 <=? z)%Z eqn:E0; simpl.
    + apply Z.leb_le in E0. destruct (z <=? 0)%Z eqn:E1.
      * apply Z.leb_le in E1. f_equal. lia.
      * apply Z.leb_gt in E1. split; [reflexivity | apply Hdraw; exact E1].
    + apply Z.leb_gt in E0. left. exact E0.
  - rewrite andb_false_r. simpl. right. reflexivity.
Qed.

Lemma random_int_range_witness :
  match RandomChoice.get_random_int (fun n => 0%Z)
          (RandomChoice.PyLong 18446744073709551616) with
  | inr v => RandomChoice.isinstance_int
               (RandomChoice.PyLong 18446744073709551616) = true /\
             (0 <= v < RandomChoice.value
                         (RandomChoice.PyLong 18446744073709551616))%Z
  | inl RandomChoice.ValueError =>
      RandomChoice.PyLong 18446744073709551616 = RandomChoice.PyInt 0
  | inl RandomChoice.AssertionError =>
      (RandomChoice.value (RandomChoice.PyLong 18446744073709551616) < 0)%Z
      \/ RandomChoice.isinstance_int
           (RandomChoice.PyLong 18446744073709551616) = false
  | inl RandomChoice.IndexError => False
  end.
Proof.
  apply (random_int_range (fun n => 0%Z)
           (RandomChoice.PyLong 18446744073709551616)).
  intros n Hn. lia.
Defined.

(** * [get_exploration_components_from_dir] *)

Lemma split_all_empty (p : string) :
  Forall (fun c => c = "") (split_on "/" p) <->
  count_leading "/" p = String.length p.
Proof.
  induction p as [|c p IH]; simpl.
  - split; [reflexivity | intros _; repeat constructor].
  - destruct (Ascii.eqb c "/").
    + split.
      * intros H. inversion H; subst. f_equal. apply IH. assumption.
      * intros H. injection H as H. constructor; [reflexivity | apply IH, H].
    + split; [|discriminate].
      intros H. pose proof (split_on_not_nil "/" p) as Hne.
      destruct (split_on "/" p); [congruence|].
      inversion H; subst. discriminate.
Qed.

Lemma strip_loop_snoc (fuel : nat) (l : list string) (x : string) :
  DirComponents.strip_loop (S fuel) (l ++ [x]) =
  if x =? "" then DirComponents.strip_loop fuel l else inr (l ++ [x])%list.
Proof.
  simpl. destruct (l ++ [x])%list eqn:E; [destruct l; discriminate|].
  rewrite <- E, last_last, removelast_last. reflexivity.
Qed.

Lemma strip_loop_all_empty (fuel : nat) (arr : list string) :
  length arr < fuel -> Forall (fun c => c = "") arr ->
  DirComponents.strip_loop fuel arr = inl DirComponents.IndexError.
Proof.
  revert arr. induction fuel as [|fuel IH]; intros arr Hlen Hall; [lia|].
  destruct (snoc_cases arr) as [-> | (l & x & ->)]; [reflexivity|].
  apply Forall_app in Hall as [Hl Hx]. inversion Hx; subst.
  rewrite length_app in Hlen. simpl in Hlen.
  rewrite strip_loop_snoc. simpl.
  apply IH; [lia | assumption].
Qed.

Lemma strip_loop_some_nonempty (fuel : nat) (arr : list string) :
  length arr < fuel -> ~ Forall (fun c => c = "") arr ->
  exists arr', DirComponents.strip_loop fuel arr = inr arr'.
Proof.
  revert arr. induction fuel as [|fuel IH]; intros arr Hlen Hall; [lia|].
  destruct (snoc_cases arr) as [-> | (l & x & ->)].
  - exfalso. apply Hall. constructor.
  - rewrite length_app in Hlen. simpl in Hlen.
    rewrite strip_loop_snoc.
    destruct (x =? "") eqn:Ex.
    + apply String.eqb_eq in Ex. subst x. apply IH; [lia|].
      intros Hl. apply Hall. apply Forall_app. split; [assumption|].
      repeat constructor.
    + eexists. reflexivity.
Qed.

Lemma strip_loop_error (fuel : nat) (arr : list string)
    (e : DirComponents.exn) :
  length arr < fuel -> DirComponents.strip_loop fuel arr = inl e ->
  Forall (fun c => c = "") arr.
Proof.
  intros Hlen H.
  destruct (Forall_dec (fun c => c = "") (fun c => string_dec c "") arr)
    as [Hall | Hall]; [assumption|].
  destruct (strip_loop_some_nonempty fuel arr Hlen Hall) as [arr' E].
  congruence.
Qed.

Section DirLoops.

Variable open_read : string -> string -> (string + string)%type.
Variable decode_utf8 : string -> option string.
Variable dir_path : string.
Variable n : nat.

Let get_file_contents :=
  DirComponents.get_file_contents open_read decode_utf8.
Let files_loop :=
  DirComponents.files_loop open_read decode_utf8 dir_path n.
Let walk_loop :=
  DirComponents.walk_loop open_read decode_utf8 dir_path n.
Let read_assets := DirComponents.read_assets open_read decode_utf8 n.
Let yaml_outcome := DirComponents.yaml_outcome open_read decode_utf8.
Let join (root f : string) : string := vfs_construct_path root [f].

Lemma get_file_contents_no_index_error (filepath : string) (raw : bool)
    (mode : string) :
  get_file_contents filepath raw mode <> inl DirComponents.IndexError.
Proof.
  unfold get_file_contents, DirComponents.get_file_contents.
  destruct (open_read filepath mode); [discriminate|].
  destruct raw; [discriminate|].
  destruct (decode_utf8 s); discriminate.
Qed.

Lemma dirs_loop_no_index_error (root : string) (dirs : list string) :
  DirComponents.dirs_loop dir_path root dirs
  <> inl DirComponents.IndexError.
Proof.
  induction dirs as [|d dirs IH]; simpl; [discriminate|].
  unfold DirComponents.dirs_body.
  destruct ((root =? dir_path) && negb (d =? "assets"));
    [discriminate | exact IH].
Qed.

Lemma files_loop_no_index_error (root : string) (files : list string)
    (st : DirComponents.loop_state) :
  files_loop root files st <> inl DirComponents.IndexError.
Proof.
  unfold files_loop. revert st.
  induction files as [|f files IH]; intros [y a]; simpl; [discriminate|].
  change (construct_step root f) with (join root f).
  destruct (root =? dir_path).
  - destruct (endswith (join root f) ".DS_Store"); [apply IH|].
    destruct y; [discriminate|].
    destruct (endswith (join root f) ".yaml"); simpl; [|discriminate].
    pose proof (get_file_contents_no_index_error (join root f) false "r")
      as Hg. unfold get_file_contents in Hg.
    destruct (DirComponents.get_file_contents open_read decode_utf8
                (join root f) false "r") as [e|c]; [|apply IH].
    intros H. apply Hg. inversion H. reflexivity.
  - pose proof (get_file_contents_no_index_error (join root f) true "r")
      as Hg. unfold get_file_contents in Hg.
    destruct (DirComponents.get_file_contents open_read decode_utf8
                (join root f) true "r") as [e|c]; [|apply IH].
    intros H. apply Hg. inversion H. reflexivity.
Qed.

Lemma walk_loop_no_index_error (walk : list DirComponents.walk_entry)
    (st : DirComponents.loop_state) :
  walk_loop walk st <> inl DirComponents.IndexError.
Proof.
  unfold walk_loop. revert st.
  induction walk as [|[[root dirs] files] walk IH]; intros st;
    simpl; [discriminate|].
  pose proof (dirs_loop_no_index_error root dirs) as Hd.
  destruct (DirComponents.dirs_loop dir_path root dirs) as [e|u].
  - intros H. apply Hd. inversion H. reflexivity.
  - pose proof (files_loop_no_index_error root files st) as Hf.
    unfold files_loop in Hf.
    destruct (DirComponents.files_loop open_read decode_utf8 dir_path n
                root files st) as [e|st'].
    + intros H. apply Hf. exact H.
    + apply IH.
Qed.

Lemma yaml_outcome_nil (y0 y1 : option string) :
  yaml_outcome y0 [] y1 <-> y1 = y0.
Proof. destruct y0; reflexivity. Qed.

Lemma yaml_outcome_some (y : string) (l : list string)
    (y1 : option string) :
  yaml_outcome (Some y) l y1 <-> l = [] /\ y1 = Some y.
Proof.
  destruct l as [|f l]; simpl.
  - split; [auto | intros [_ H]; exact H].
  - split; [contradiction | intros [H _]; discriminate].
Qed.

Lemma yaml_outcome_cons (f : string) (l : list string)
    (y1 : option string) :
  yaml_outcome None (f :: l) y1 <->
  endswith f ".yaml" = true /\
  exists text, get_file_contents f false "r" = inr text /\
               yaml_outcome (Some text) l y1.
Proof.
  destruct l as [|g l]; simpl.
  - split.
    + intros (H & text & Ht & ->). split; [exact H|]. exists text. auto.
    + intros (H & text & Ht & ->). split; [exact H|]. exists text. auto.
  - split; [contradiction | intros (_ & text & _ & [])].
Qed.

Lemma yaml_outcome_app (y0 y1 : option string) (l1 l2 : list string) :
  yaml_outcome y0 (l1 ++ l2) y1 <->
  exists ym, yaml_outcome y0 l1 ym /\ yaml_outcome ym l2 y1.
Proof.
  destruct l1 as [|f l1].
  - simpl. split.
    + intros H. exists y0. rewrite yaml_outcome_nil. auto.
    + intros (ym & H1 & H2). apply yaml_outcome_nil in H1. subst. exact H2.
  - destruct y0 as [y|].
    + split.
      * intros H. apply yaml_outcome_some in H as [H _]. discriminate.
      * intros (ym & H1 & _). apply yaml_outcome_some in H1 as [H _].
        discriminate.
    + change ((f :: l1) ++ l2)%list with (f :: (l1 ++ l2))%list.
      rewrite yaml_outcome_cons. split.
      * intros (Hf & text & Ht & H).
        apply yaml_outcome_some in H as [E ->].
        apply app_eq_nil in E as [-> ->].
        exists (Some text). split; [|apply yaml_outcome_nil; auto].
        apply yaml_outcome_cons. split; [exact Hf|]. exists text.
        split; [exact Ht|]. apply yaml_outcome_nil. reflexivity.
      * intros (ym & H1 & H2).
        apply yaml_outcome_cons in H1 as (Hf & text & Ht & H1).
        apply yaml_outcome_some in H1 as [-> ->].
        apply yaml_outcome_some in H2 as [-> ->].
        split; [exact Hf|]. exists text. split; [exact Ht|].
        apply yaml_outcome_some. auto.
Qed.

Lemma yaml_outcome_none (l : list string) (y1 : option string) :
  yaml_outcome None l y1 <->
  (l = [] /\ y1 = None) \/
  (exists f text, l = [f] /\ endswith f ".yaml" = true /\
                  get_file_contents f false "r" = inr text /\
                  y1 = Some text).
Proof.
  destruct l as [|f l].
  - rewrite yaml_outcome_nil. split.
    + intros ->. left. auto.
    + intros [[_ H] | (f & text & H & _)]; [exact H | discriminate].
  - rewrite yaml_outcome_cons. split.
    + intros (Hf & text & Ht & H).
      apply yaml_outcome_some in H as [-> ->].
      right. exists f, text. auto.
    + intros [[H _] | (g & text & H & Hg & Ht & ->)]; [discriminate|].
      inversion H; subst. split; [exact Hg|]. exists text.
      split; [exact Ht|]. apply yaml_outcome_some. auto.
Qed.

Lemma read_assets_app (l1 l2 : list string)
    (m : list (string * string)) :
  read_assets (l1 ++ l2) = inr m <->
  exists m1 m2, read_assets l1 = inr m1 /\ read_assets l2 = inr m2 /\
                m = (m1 ++ m2)%list.
Proof.
  unfold read_assets. revert m.
  induction l1 as [|p l1 IH]; intros m; simpl.
  - split.
    + intros H. exists [], m. auto.
    + intros (m1 & m2 & H1 & H2 & ->). inversion H1; subst. exact H2.
  - destruct (DirComponents.get_file_contents open_read decode_utf8 p true
                "r") as [e|b].
    + split; [discriminate | intros (m1 & m2 & H & _); discriminate].
    + destruct (DirComponents.read_assets open_read decode_utf8 n
                  (l1 ++ l2)) as [e|r] eqn:Er.
      * split; [discriminate|]. intros (m1 & m2 & H1 & H2 & ->).
        destruct (DirComponents.read_assets open_read decode_utf8 n l1)
          as [e1|r1]; [discriminate|].
        assert (X : @inl DirComponents.exn (list (string * string)) e
                    = inr (r1 ++ m2)%list)
          by (apply IH; exists r1, m2; auto).
        discriminate X.
      * destruct (proj1 (IH r) eq_refl) as (r1 & r2 & H1 & H2 & ->).
        rewrite H1, H2. split.
        -- intros H. inversion H; subst. exists ((DirComponents.asset_name
                                                    n p, b) :: r1), r2.
           auto.
        -- intros (m1 & m2 & E1 & E2 & ->).
           inversion E1; subst. inversion E2; subst. reflexivity.
Qed.

Lemma files_loop_top (root : string) (files : list string)
    (y0 y1 : option string) (a0 a1 : list (string * string)) :
  (root =? dir_path) = true ->
  files_loop root files (y0, a0) = inr (y1, a1) <->
  a1 = a0 /\
  yaml_outcome y0
    (filter DirComponents.not_ds_store (map (join root) files)) y1.
Proof.
  intros Hroot. revert y0.
  induction files as [|f files IH]; intros y0.
  - simpl. split.
    + intros H. inversion H. split; [reflexivity|].
      apply yaml_outcome_nil. reflexivity.
    + intros [-> H]. apply yaml_outcome_nil in H. rewrite H. reflexivity.
  - unfold files_loop in *. simpl. rewrite Hroot.
    unfold DirComponents.not_ds_store at 1.
    change (vfs_construct_path root [f]) with (join root f).
    change (construct_step root f) with (join root f).
    destruct (endswith (join root f) ".DS_Store"); simpl; [apply IH|].
    destruct y0 as [y|].
    + split; [discriminate|]. intros [_ H].
      apply yaml_outcome_some in H as [H _]. discriminate.
    + rewrite yaml_outcome_cons. unfold get_file_contents.
      destruct (endswith (join root f) ".yaml") eqn:Ey; simpl.
      * destruct (DirComponents.get_file_contents open_read decode_utf8
                    (join root f) false "r") as [e|c].
        -- split; [discriminate | intros (_ & _ & text & H & _)].
           discriminate.
        -- rewrite IH. split.
           ++ intros [-> H]. split; [reflexivity|]. split; [reflexivity|].
              exists c. auto.
           ++ intros (-> & _ & text & Ht & H). inversion Ht; subst. auto.
      * split; [discriminate | intros (_ & H & _); discriminate].
Qed.

Lemma files_loop_deep (root : string) (files : list string)
    (y0 y1 : option string) (a0 a1 : list (string * string)) :
  (root =? dir_path) = false ->
  files_loop root files (y0, a0) = inr (y1, a1) <->
  y1 = y0 /\
  exists more, read_assets (map (join root) files) = inr more /\
               a1 = (a0 ++ more)%list.
Proof.
  intros Hroot. unfold files_loop, read_assets. revert a0.
  induction files as [|f files IH]; intros a0.
  - simpl. split.
    + intros H. inversion H. split; [reflexivity|]. exists [].
      rewrite app_nil_r. auto.
    + intros (-> & more & H & ->). inversion H. rewrite app_nil_r.
      reflexivity.
  - simpl. rewrite Hroot.
    change (vfs_construct_path root [f]) with (join root f).
    change (construct_step root f) with (join root f).
    destruct (DirComponents.get_file_contents open_read decode_utf8
                (join root f) true "r") as [e|b].
    + split; [discriminate | intros (_ & more & H & _); discriminate].
    + rewrite IH. split.
      * intros (-> & more & Hm & ->). split; [reflexivity|].
        rewrite Hm. eexists. split; [reflexivity|].
        rewrite <- app_assoc. reflexivity.
      * intros (-> & more & Hm & ->). split; [reflexivity|].
        destruct (DirComponents.read_assets open_read decode_utf8 n
                    (map (join root) files)) as [e|r]; [discriminate|].
        inversion Hm; subst. exists r. split; [reflexivity|].
        rewrite <- app_assoc. reflexivity.
Qed.

Lemma dirs_loop_ok (root : string) (dirs : list string) :
  DirComponents.dirs_loop dir_path root dirs = inr tt <->
  ((root =? dir_path) = true -> Forall (fun d => d = "assets") dirs).
Proof.
  induction dirs as [|d dirs IH]; simpl.
  - split; [intros _ _; constructor | reflexivity].
  - unfold DirComponents.dirs_body.
    destruct (root =? dir_path); simpl.
    + destruct (d =? "assets") eqn:Ed; simpl.
      * apply String.eqb_eq in Ed. subst d. rewrite IH. split.
        -- intros H _. constructor; [reflexivity | apply H; reflexivity].
        -- intros H _. specialize (H eq_refl). inversion H. assumption.
      * apply String.eqb_neq in Ed. split; [discriminate|].
        intros H. specialize (H eq_refl). inversion H. contradiction.
    + rewrite IH. split; intros _; intros X; discriminate X.
Qed.

Lemma walk_loop_ok (walk : list DirComponents.walk_entry)
    (y0 y1 : option string) (a0 a1 : list (string * string)) :
  walk_loop walk (y0, a0) = inr (y1, a1) <->
  Forall (fun d => d = "assets") (DirComponents.top_dirs dir_path walk) /\
  yaml_outcome y0
    (filter DirComponents.not_ds_store
       (DirComponents.top_files dir_path walk)) y1 /\
  exists more,
    read_assets (DirComponents.deep_files dir_path walk) = inr more /\
    a1 = (a0 ++ more)%list.
Proof.
  revert y0 a0.
  induction walk as [|[[root dirs] files] walk IH]; intros y0 a0.
  - simpl. split.
    + intros H. inversion H. split; [constructor|].
      split; [apply yaml_outcome_nil; reflexivity|].
      exists []. rewrite app_nil_r. auto.
    + intros (_ & H & more & Hm & ->). apply yaml_outcome_nil in H.
      inversion Hm. rewrite H, app_nil_r. reflexivity.
  - unfold walk_loop in *. simpl.
    pose proof (dirs_loop_ok root dirs) as Hd.
    destruct (root =? dir_path) eqn:Hroot.
    + rewrite app_nil_l, filter_app, Forall_app.
      destruct (DirComponents.dirs_loop dir_path root dirs) as [e | []].
      * split; [discriminate|]. intros ([H _] & _).
        assert (X : @inl DirComponents.exn unit e = inr tt)
          by (apply Hd; intros _; exact H).
        discriminate X.
      * assert (Hdirs : Forall (fun d => d = "assets") dirs)
          by (apply (proj1 Hd); reflexivity).
        destruct (DirComponents.files_loop open_read decode_utf8 dir_path n
                    root files (y0, a0)) as [e | [ym am]] eqn:Ef.
        -- split; [discriminate|]. intros (_ & H & _).
           apply yaml_outcome_app in H as (ym & H1 & _).
           assert (Hf : files_loop root files (y0, a0) = inr (ym, a0))
             by (apply files_loop_top; auto).
           unfold files_loop in Hf. congruence.
        -- apply (files_loop_top root files y0 ym a0 am Hroot) in Ef
             as [-> Hym].
           rewrite IH. split.
           ++ intros (Hw & H2 & Hm). repeat split; try assumption.
              apply yaml_outcome_app. exists ym. auto.
           ++ intros ([_ Hw] & H & Hm). repeat split; try assumption.
              apply yaml_outcome_app in H as (ym' & H1 & H2).
              assert (ym' = ym); [|subst; assumption].
              assert (Hf : files_loop root files (y0, a0) = inr (ym', a0))
                by (apply files_loop_top; auto).
              assert (Hf' : files_loop root files (y0, a0) = inr (ym, a0))
                by (apply files_loop_top; auto).
              congruence.
    + rewrite app_nil_l.
      destruct (DirComponents.dirs_loop dir_path root dirs) as [e | []].
      * exfalso. assert (H : @inl DirComponents.exn unit e = inr tt)
          by (apply Hd; intros X; discriminate X).
        discriminate H.
      * destruct (DirComponents.files_loop open_read decode_utf8 dir_path n
                    root files (y0, a0)) as [e | [ym am]] eqn:Ef.
        -- split; [discriminate|]. intros (_ & _ & more & Hm & _).
           apply read_assets_app in Hm as (m1 & m2 & H1 & _ & _).
           assert (Hf : files_loop root files (y0, a0)
                        = inr (y0, (a0 ++ m1)%list))
             by (apply files_loop_deep; [assumption|]; split;
                 [reflexivity | exists m1; auto]).
           unfold files_loop in Hf. congruence.
        -- apply (files_loop_deep root files y0 ym a0 am Hroot) in Ef
             as (-> & m1 & Hm1 & ->).
           rewrite IH. split.
           ++ intros (Hw & Hy & m2 & Hm2 & ->).
              repeat split; try assumption.
              exists (m1 ++ m2)%list.
              split; [|symmetry; apply app_assoc].
              apply read_assets_app. exists m1, m2. auto.
           ++ intros (Hw & Hy & more & Hm & ->).
              repeat split; try assumption.
              apply read_assets_app in Hm as (m1' & m2 & H1 & H2 & ->).
              assert (m1' = m1).
              { assert (X : @inr DirComponents.exn _ m1' = inr m1)
                  by (rewrite <- H1, <- Hm1; reflexivity).
                inversion X. reflexivity. }
              subst m1'.
              exists m2. split; [assumption | apply app_assoc].
Qed.

End DirLoops.

(** X17: The call raises [IndexError] exactly when [dir_path] is made of
    slashes only, the empty path included: the loop that drops the empty
    components at the end of the split path then runs out of
    components.  The directory tree is not looked at. *)
Theorem dir_components_index_error
    (open_read : string -> string -> (string + string)%type)
    (decode_utf8 : string -> option string) (dir_path : string)
    (walk : list DirComponents.walk_entry) (walk_end : option string) :
  DirComponents.get_exploration_components_from_dir open_read decode_utf8
    dir_path walk walk_end = inl DirComponents.IndexError <->
  count_leading "/" dir_path = String.length dir_path.
Proof.
  unfold DirComponents.get_exploration_components_from_dir.
  rewrite <- split_all_empty.
  set (arr := split_on "/" dir_path). split.
  - intros H.
    destruct (Forall_dec (fun c => c = "")
                (fun c => string_dec c "") arr) as [Hall | Hall];
      [assumption | exfalso].
    destruct (strip_loop_some_nonempty (S (length arr)) arr) as [arr' E];
      [lia | assumption |].
    rewrite E in H.
    pose proof (walk_loop_no_index_error open_read decode_utf8 dir_path
                  (length arr') walk (None, [])) as Hw.
    destruct (DirComponents.walk_loop open_read decode_utf8 dir_path
                (length arr') walk (None, [])) as [e | [[y|] a]];
      [apply Hw; inversion H; reflexivity
      | destruct walk_end; discriminate
      | destruct walk_end; discriminate].
  - intros Hall. rewrite strip_loop_all_empty; [reflexivity | lia | exact Hall].
Qed.

Lemma dir_components_index_error_witness :
  DirComponents.get_exploration_components_from_dir
    (fun _ _ => inr "x") (fun b => Some b) "//"
    [("//", ["assets"], ["main.yaml"])] None
  = inl DirComponents.IndexError.
Proof.
  apply (proj2 (dir_components_index_error
                  (fun _ _ => inr "x") (fun b => Some b) "//"
                  [("//", ["assets"], ["main.yaml"])] None)).
  reflexivity.
Defined.

(** X18: The call returns exactly when [dir_path] is not made of slashes
    only, the walk ends without raising, every directory directly in
    [dir_path] is called [assets], [.DS_Store] files apart exactly one
    file sits directly in it, that file ends with [.yaml] and can be read
    and decoded, and every file found deeper can be read.  The result is
    the text of the first and one asset per deeper file, in the order of
    the walk. *)
Theorem dir_components_returns
    (open_read : string -> string -> (string + string)%type)
    (decode_utf8 : string -> option string) (dir_path : string)
    (walk : list DirComponents.walk_entry) (walk_end : option string)
    (y : string) (assets : list (string * string)) :
  DirComponents.get_exploration_components_from_dir open_read decode_utf8
    dir_path walk walk_end = inr (y, assets) <->
  count_leading "/" dir_path <> String.length dir_path /\
  walk_end = None /\
  Forall (fun d => d = "assets") (DirComponents.top_dirs dir_path walk) /\
  (exists f,
      filter DirComponents.not_ds_store
        (DirComponents.top_files dir_path walk) = [f] /\
      endswith f ".yaml" = true /\
      DirComponents.get_file_contents open_read decode_utf8 f false "r"
      = inr y) /\
  DirComponents.read_assets open_read decode_utf8
    (DirComponents.stripped_length dir_path)
    (DirComponents.deep_files dir_path walk) = inr assets.
Proof.
  unfold DirComponents.get_exploration_components_from_dir,
    DirComponents.stripped_length.
  rewrite <- split_all_empty.
  set (arr := split_on "/" dir_path).
  destruct (DirComponents.strip_loop (S (length arr)) arr) as [e | arr']
    eqn:Es.
  - apply strip_loop_error in Es; [|lia].
    split; [discriminate | intros [H _]; contradiction].
  - assert (Hne : ~ Forall (fun c => c = "") arr).
    { intros Hall. rewrite strip_loop_all_empty in Es by (try lia; assumption).
      discriminate. }
    set (n := length arr').
    pose proof (walk_loop_ok open_read decode_utf8 dir_path n walk
                  None (Some y) [] assets) as Hw.
    rewrite yaml_outcome_none in Hw.
    transitivity (walk_end = None /\
                  DirComponents.walk_loop open_read decode_utf8 dir_path n
                    walk (None, []) = inr (Some y, assets)).
    + destruct (DirComponents.walk_loop open_read decode_utf8 dir_path n
                  walk (None, [])) as [e | [[y'|] a']].
      * split; [discriminate | intros [_ H]; discriminate].
      * destruct walk_end as [what|].
        -- split; [discriminate | intros [H _]; discriminate].
        -- split; [intros H; inversion H; auto
                  | intros [_ H]; inversion H; reflexivity].
      * destruct walk_end as [what|];
          (split; [discriminate | intros [_ H]; discriminate]).
    + rewrite Hw. split.
      * intros (He & Hd & [[_ H] | (f & text & Hf & Hy & Ht & H)]
                & more & Hm & Ha); [discriminate|].
        inversion H; subst. simpl in Hm.
        repeat split; try assumption. exists f. auto.
      * intros (_ & He & Hd & (f & Hf & Hy & Ht) & Ha).
        split; [assumption|]. split; [assumption|]. split.
        -- right. exists f, y. auto.
        -- exists assets. auto.
Qed.

Lemma dir_components_returns_witness :
  DirComponents.get_exploration_components_from_dir
    (fun p _ => inr ("bytes of " ++ p)) (fun b => Some ("text of " ++ b))
    "data/exp/"
    [("data/exp/", ["assets"], [".DS_Store"; "exp.yaml"]);
     ("data/exp/assets", ["img"], ["a.txt"]);
     ("data/exp/assets/img", [], ["b.png"])] None
  = inr ("text of bytes of data/exp/exp.yaml",
         [("a.txt", "bytes of data/exp/assets/a.txt");
          ("img/b.png", "bytes of data/exp/assets/img/b.png")]).
Proof.
  apply (proj2 (dir_components_returns
                  (fun p _ => inr ("bytes of " ++ p))
                  (fun b => Some ("text of " ++ b))
                  "data/exp/"
                  [("data/exp/", ["assets"], [".DS_Store"; "exp.yaml"]);
                   ("data/exp/assets", ["img"], ["a.txt"]);
                   ("data/exp/assets/img", [], ["b.png"])] None
                  "text of bytes of data/exp/exp.yaml"
                  [("a.txt", "bytes of data/exp/assets/a.txt");
                   ("img/b.png", "bytes of data/exp/assets/img/b.png")])).
  split; [vm_compute; discriminate|].
  split; [reflexivity|].
  split; [vm_compute; repeat constructor|].
  split; [exists "data/exp/exp.yaml"; vm_compute; repeat split|].
  vm_compute. reflexivity.
Defined.

Lemma split_on_trailing (s : string) (k : nat) :
  split_on "/" (s ++ str_mul "/" k) = (split_on "/" s ++ repeat "" k)%list.
Proof.
  destruct k as [|k].
  - simpl. rewrite string_app_nil_r, app_nil_r. reflexivity.
  - change (str_mul "/" (S k)) with (String "/" (str_mul "/" k)).
    rewrite split_on_app_sep.
    pose proof (split_on_mul k "") as H. rewrite string_app_nil_r in H.
    rewrite H. simpl split_on. rewrite repeat_snoc. reflexivity.
Qed.

Lemma strip_loop_trailing (A : list string) (k fuel : nat) :
  A <> [] -> last A "" <> "" -> length A + k < fuel ->
  DirComponents.strip_loop fuel (A ++ repeat "" k) = inr A.
Proof.
  intros Hne Hlast. revert fuel. induction k as [|k IH]; intros fuel Hlen.
  - rewrite app_nil_r. destruct fuel as [|fuel]; [lia|].
    destruct (snoc_cases A) as [-> | (l & x & ->)]; [congruence|].
    rewrite last_last in Hlast. apply String.eqb_neq in Hlast.
    rewrite strip_loop_snoc, Hlast. reflexivity.
  - destruct fuel as [|fuel]; [lia|].
    rewrite <- repeat_snoc, app_assoc, strip_loop_snoc. simpl.
    apply IH. lia.
Qed.

Lemma entry_relative (d : string) :
  DirComponents.entry_name d -> startswith d "/" = false.
Proof.
  intros [Hne Hfree]. destruct d as [|a d]; [congruence|].
  simpl in Hfree. apply orb_false_iff in Hfree as [Ha _].
  rewrite startswith_cons, Ascii.eqb_sym, Ha. reflexivity.
Qed.

Lemma entries_free (names : list string) :
  Forall DirComponents.entry_name names ->
  Forall (fun c => contains_char "/" c = false) names.
Proof. apply Forall_impl. intros c [_ H]. exact H. Qed.

Lemma app_nonempty (w x : string) : x <> "" -> w ++ x <> "".
Proof. destruct w; simpl; [auto | discriminate]. Qed.

(** Joining a non-empty path with names of directory entries. *)
Lemma construct_loop_entries (names : list string) (path : string) :
  path <> "" -> Forall DirComponents.entry_name names -> names <> [] ->
  construct_loop path names =
  path ++ (if Spec.ends_with_slash path then "" else "/")
       ++ String.concat "/" names.
Proof.
  intros Hp Hall. revert path Hp.
  induction Hall as [|d rest Hd Hrest IH]; intros path Hp Hne; [congruence|].
  simpl construct_loop.
  assert (Hstep : construct_step path d =
                  path ++ (if Spec.ends_with_slash path then "" else "/")
                       ++ d).
  { unfold construct_step. rewrite (entry_relative d Hd).
    apply String.eqb_neq in Hp. rewrite Hp, endswith_slash_spec. simpl orb.
    destruct (Spec.ends_with_slash path); reflexivity. }
  destruct rest as [|e rest]; [exact Hstep|].
  assert (Hd' : d <> "") by apply Hd.
  rewrite IH; [| rewrite Hstep, <- string_app_assoc;
                 apply app_nonempty; exact Hd' | discriminate].
  assert (He : Spec.ends_with_slash (construct_step path d) = false).
  { rewrite Hstep, <- string_app_assoc, ends_with_slash_app by exact Hd'.
    apply ends_with_slash_free. apply Hd. }
  rewrite He, Hstep.
  change (String.concat "/" (d :: e :: rest))
    with (d ++ "/" ++ String.concat "/" (e :: rest)).
  rewrite !string_app_assoc. reflexivity.
Qed.

Lemma concat_last_nonempty (A : list string) :
  A <> [] -> last A "" <> "" ->
  Forall (fun c => contains_char "/" c = false) A ->
  String.concat "/" A <> "" /\
  Spec.ends_with_slash (String.concat "/" A) = false.
Proof.
  intros Hne Hlast Hfree.
  destruct (snoc_cases A) as [-> | (l & x & ->)]; [congruence|].
  rewrite last_last in Hlast.
  apply Forall_app in Hfree as [_ Hx]. inversion Hx; subst.
  destruct (concat_snoc "/" l x) as [w ->]. split.
  - apply app_nonempty. exact Hlast.
  - rewrite ends_with_slash_app by exact Hlast.
    apply ends_with_slash_free. assumption.
Qed.

Lemma str_mul_snoc (k : nat) : str_mul "/" (S k) = str_mul "/" k ++ "/".
Proof. induction k as [|k IH]; [reflexivity|]. simpl in *. rewrite IH at 1. reflexivity. Qed.

(** The components of the path of a file below [dir_path]. *)
Lemma deep_path_split (A names : list string) (k : nat) :
  A <> [] -> last A "" <> "" ->
  Forall (fun c => contains_char "/" c = false) A ->
  Forall DirComponents.entry_name names -> names <> [] ->
  split_on "/"
    (vfs_construct_path (String.concat "/" A ++ str_mul "/" k) names)
  = (A ++ repeat "" (k - 1) ++ names)%list.
Proof.
  intros HA Hlast Hfree Hnames Hne.
  destruct (concat_last_nonempty A HA Hlast Hfree) as [Hp He].
  pose proof (entries_free names Hnames) as Hnf.
  unfold vfs_construct_path.
  destruct k as [|k].
  - simpl str_mul. rewrite string_app_nil_r.
    rewrite construct_loop_entries, He by assumption.
    change (String.concat "/" A ++ "/" ++ String.concat "/" names)
      with (String.concat "/" A ++ String "/" (String.concat "/" names)).
    rewrite split_on_app_sep, !(split_on_concat "/") by assumption.
    reflexivity.
  - rewrite construct_loop_entries;
      [| rewrite str_mul_snoc, <- string_app_assoc;
         apply app_nonempty; discriminate
       | assumption | assumption].
    assert (Hs : Spec.ends_with_slash
                   (String.concat "/" A ++ str_mul "/" (S k)) = true).
    { rewrite str_mul_snoc, <- string_app_assoc, ends_with_slash_app
        by discriminate. reflexivity. }
    rewrite Hs. simpl (S k - 1). rewrite Nat.sub_0_r.
    change (str_mul "/" (S k)) with (String "/" (str_mul "/" k)).
    change ((String.concat "/" A ++ String "/" (str_mul "/" k))
            ++ "" ++ String.concat "/" names)
      with ((String.concat "/" A ++ String "/" (str_mul "/" k))
            ++ String.concat "/" names).
    rewrite string_app_assoc.
    change (String "/" (str_mul "/" k) ++ String.concat "/" names)
      with (String "/" (str_mul "/" k ++ String.concat "/" names)).
    rewrite split_on_app_sep, split_on_mul, !(split_on_concat "/")
      by assumption.
    reflexivity.
Qed.

(** X19: [dir_path] is the components [A] joined with [/], with [A] not
    empty and its last component not empty, followed by [k] slashes; a
    file below it has the path that joining [dir_path] with the names [d],
    [rest] of directory entries gives.  With at most one slash at the end
    of [dir_path] the file is recorded under the name [rest]: the name
    does not include the [assets/] prefix.  With two slashes or more the
    first directory stays in the name. *)
Theorem dir_asset_name (A rest : list string) (d : string) (k : nat) :
  A <> [] -> last A "" <> "" ->
  Forall (fun c => contains_char "/" c = false) A ->
  Forall DirComponents.entry_name (d :: rest) ->
  let dir_path := String.concat "/" A ++ str_mul "/" k in
  let filepath := vfs_construct_path dir_path (d :: rest) in
  (k <= 1 ->
   DirComponents.asset_name (DirComponents.stripped_length dir_path)
     filepath = String.concat "/" rest) /\
  (2 <= k ->
   DirComponents.asset_name (DirComponents.stripped_length dir_path)
     filepath = String.concat "/" (repeat "" (k - 2) ++ d :: rest)).
Proof.
  intros HA Hlast Hfree Hnames dir_path filepath.
  assert (Hlen : DirComponents.stripped_length dir_path = length A).
  { unfold DirComponents.stripped_length, dir_path.
    rewrite split_on_trailing, (split_on_concat "/") by assumption.
    rewrite strip_loop_trailing
      by (try assumption; rewrite length_app, repeat_length; lia).
    reflexivity. }
  assert (Hname : DirComponents.asset_name
                    (DirComponents.stripped_length dir_path) filepath
                  = String.concat "/"
                      (skipn 1 (repeat "" (k - 1) ++ d :: rest))).
  { unfold DirComponents.asset_name, filepath, dir_path.
    rewrite deep_path_split by (try assumption; discriminate).
    fold dir_path. rewrite Hlen, skipn_app.
    rewrite skipn_all2 by lia.
    replace (length A + 1 - length A) with 1 by lia. reflexivity. }
  rewrite Hname. split; intros Hk.
  - replace (k - 1) with 0 by lia. reflexivity.
  - replace (k - 1) with (S (k - 2)) by lia. reflexivity.
Qed.

Lemma dir_asset_name_witness :
  DirComponents.asset_name (DirComponents.stripped_length "data/exp/")
    (vfs_construct_path "data/exp/" ["assets"; "img"; "b.png"])
  = "img/b.png" /\
  DirComponents.asset_name (DirComponents.stripped_length "data/exp//")
    (vfs_construct_path "data/exp//" ["assets"; "img"; "b.png"])
  = "assets/img/b.png".
Proof.
  split.
  - refine (proj1 (dir_asset_name ["data"; "exp"] ["img"; "b.png"] "assets" 1
                     _ _ _ _) _).
    + discriminate.
    + vm_compute. discriminate.
    + repeat constructor.
    + repeat constructor; discriminate.
    + lia.
  - refine (proj2 (dir_asset_name ["data"; "exp"] ["img"; "b.png"] "assets" 2
                     _ _ _ _) _).
    + discriminate.
    + vm_compute. discriminate.
    + repeat constructor.
    + repeat constructor; discriminate.
    + lia.
Defined.

(** * More on [vfs_construct_path] and [vfs_normpath] *)

Lemma startswith_iff (s pre : string) :
  startswith s pre = true <-> exists t, s = pre ++ t.
Proof.
  revert s. induction pre as [|a pre IH]; intros s.
  - rewrite startswith_nil. split; [intros _; exists s; reflexivity | reflexivity].
  - destruct s as [|c s].
    + rewrite startswith_empty. split; [discriminate|].
      intros [t H]. discriminate.
    + rewrite startswith_cons, andb_true_iff, IH, Ascii.eqb_eq. split.
      * intros [-> [t ->]]. exists t. reflexivity.
      * intros [t H]. simpl in H. inversion H; subst. split; [reflexivity|].
        exists t. reflexivity.
Qed.

(** X2: Joining segments none of which starts with [/] keeps the base as a
    prefix of the result. *)
Theorem construct_path_keeps_base (a : string) (p : list string) :
  Forall (fun b => startswith b "/" = false) p ->
  startswith (vfs_construct_path a p) a = true.
Proof.
  intros H. unfold vfs_construct_path.
  assert (G : forall x, startswith x a = true ->
                        startswith (construct_loop x p) a = true).
  { induction H as [|b p Hb _ IH]; intros x Hx; simpl; [exact Hx|].
    apply IH. apply startswith_iff in Hx as [t ->].
    unfold construct_step. rewrite Hb. apply startswith_iff.
    destruct ((a ++ t =? "") || endswith (a ++ t) "/").
    - exists (t ++ b). apply string_app_assoc.
    - exists (t ++ "/" ++ b). apply string_app_assoc. }
  apply G. apply startswith_iff. exists "". symmetry. apply string_app_nil_r.
Qed.

Lemma construct_path_keeps_base_witness :
  startswith (vfs_construct_path "a/b" ["../c"; ""; "d"]) "a/b" = true.
Proof.
  apply (construct_path_keeps_base "a/b" ["../c"; ""; "d"]).
  repeat constructor.
Defined.

Lemma string_length_app (x y : string) :
  String.length (x ++ y) = String.length x + String.length y.
Proof. induction x as [|a x IH]; simpl; [reflexivity | rewrite IH; reflexivity]. Qed.

Lemma str_mul_length (k : nat) : String.length (str_mul "/" k) = k.
Proof. induction k as [|k IH]; simpl; [reflexivity | rewrite IH; reflexivity]. Qed.

Lemma comps_weight_app (l1 l2 : list string) :
  comps_weight (l1 ++ l2) = comps_weight l1 + comps_weight l2.
Proof. unfold comps_weight. rewrite map_app, list_sum_app. reflexivity. Qed.

Lemma comps_weight_concat (l : list string) :
  l <> [] -> S (String.length (String.concat "/" l)) = comps_weight l.
Proof.
  induction l as [|x l IH]; [congruence|]. intros _.
  destruct l as [|y l].
  - unfold comps_weight. simpl. lia.
  - change (String.concat "/" (x :: y :: l))
      with (x ++ "/" ++ String.concat "/" (y :: l)).
    change (comps_weight (x :: y :: l))
      with (S (String.length x) + comps_weight (y :: l)).
    rewrite <- IH by discriminate.
    rewrite !string_length_app. simpl. lia.
Qed.

Lemma comps_weight_split (p : string) :
  comps_weight (split_on "/" p) = S (String.length p).
Proof.
  induction p as [|c p IH]; [reflexivity|].
  simpl. destruct (Ascii.eqb c "/").
  - change (comps_weight ("" :: split_on "/" p))
      with (1 + comps_weight (split_on "/" p)).
    rewrite IH. reflexivity.
  - pose proof (split_on_not_nil "/" p) as Hne.
    destruct (split_on "/" p) as [|h t]; [congruence|].
    unfold comps_weight in *. simpl in *. lia.
Qed.

Lemma kept_weight_le (l : list string) : kept_weight l <= comps_weight l.
Proof.
  unfold kept_weight, comps_weight.
  induction l as [|x l IH]; simpl; [lia|].
  destruct (x =? ""); lia.
Qed.

Lemma kept_weight_empties (k : nat) (l : list string) :
  kept_weight (repeat "" k ++ l) = kept_weight l.
Proof. induction k as [|k IH]; simpl; [reflexivity | exact IH]. Qed.

(** One round of the loop adds at most the component it reads, and
    nothing for an empty component. *)
Lemma norm_step_weight (k : nat) (nc : list string) (c : string) :
  comps_weight (norm_step k nc c) <= comps_weight nc + kept_weight [c].
Proof.
  unfold norm_step.
  destruct ((c =? "") || (c =? ".")) eqn:E; [lia|].
  apply orb_false_iff in E as [E0 _].
  assert (Hc : kept_weight [c] = S (String.length c)).
  { unfold kept_weight. simpl. rewrite E0. lia. }
  match goal with
  | |- context [if ?b then (nc ++ [c])%list else _] => destruct b
  end.
  - rewrite comps_weight_app, Hc. unfold comps_weight. simpl. lia.
  - destruct (snoc_cases nc) as [-> | (l & x & ->)];
      [unfold comps_weight; simpl; lia|].
    rewrite truthy_snoc, removelast_last, comps_weight_app. lia.
Qed.

Lemma fold_norm_step_weight (k : nat) (comps acc : list string) :
  comps_weight (fold_left (norm_step k) comps acc) <=
  comps_weight acc + kept_weight comps.
Proof.
  revert acc. induction comps as [|c comps IH]; intros acc; simpl.
  - unfold kept_weight. simpl. lia.
  - specialize (IH (norm_step k acc c)).
    pose proof (norm_step_weight k acc c) as Hs.
    unfold kept_weight in *. simpl in *. lia.
Qed.

Lemma leading_slashes_split (p : string) :
  exists body, p = str_mul "/" (count_leading "/" p) ++ body.
Proof.
  induction p as [|c p [body IH]]; [exists ""; reflexivity|].
  simpl. destruct (Ascii.eqb c "/") eqn:E.
  - apply Ascii.eqb_eq in E. subst c. exists body. simpl. rewrite <- IH.
    reflexivity.
  - exists (String c p). reflexivity.
Qed.

Lemma initial_slashes_le_count (p : string) :
  initial_slashes_of p <= count_leading "/" p.
Proof.
  rewrite initial_slashes_count.
  destruct (count_leading "/" p) as [|[|[|n]]]; lia.
Qed.

(** X6: Normalizing never makes a path longer, the empty path apart, which
    becomes ["."]. *)
Theorem normpath_length (p : string) :
  String.length (vfs_normpath p) <= Nat.max 1 (String.length p).
Proof.
  rewrite normpath_render.
  pose proof (initial_slashes_le_count p) as Hk.
  pose proof (count_leading_le "/" p) as Hc.
  assert (Hw : comps_weight (new_comps_of p) + count_leading "/" p
               <= S (String.length p)).
  { destruct (leading_slashes_split p) as [body E].
    unfold new_comps_of.
    pose proof (fold_norm_step_weight (initial_slashes_of p)
                  (split_on "/" p) []) as Hf.
    assert (Es : split_on "/" p =
                 (repeat "" (count_leading "/" p) ++ split_on "/" body)%list)
      by (rewrite E at 1; apply split_on_mul).
    rewrite Es in Hf at 2. rewrite kept_weight_empties in Hf.
    pose proof (kept_weight_le (split_on "/" body)) as Hb.
    rewrite comps_weight_split in Hb.
    assert (El : String.length p = count_leading "/" p + String.length body).
    { rewrite E at 1. rewrite string_length_app, str_mul_length.
      reflexivity. }
    change (comps_weight []) with 0 in Hf. lia. }
  unfold render, slash, dot, str_or.
  destruct (str_mul "/" (initial_slashes_of p)
            ++ String.concat "/" (new_comps_of p) =? "");
    [change (String.length ".") with 1; lia|].
  rewrite string_length_app, str_mul_length.
  destruct (new_comps_of p) as [|x l] eqn:El.
  - change (String.length (String.concat "/" [])) with 0. lia.
  - pose proof (comps_weight_concat (x :: l)) as Hj.
    specialize (Hj ltac:(discriminate)). lia.
Qed.

(** * [get_comma_sep_string_from_list] *)

Example comma_sep_samples :
  map get_comma_sep_string_from_list
      [[]; ["a"]; ["a"; "b"]; ["a"; "b"; "c"]; [""; ""]]
  = [""; "a"; "a and b"; "a, b and c"; " and "].
Proof. reflexivity. Qed.

Lemma concat_mentions (sep x : string) (l : list string) :
  In x l -> exists a b, String.concat sep l = a ++ x ++ b.
Proof.
  induction l as [|y l IH]; [contradiction|].
  intros [-> | Hin].
  - destruct l as [|z l].
    + exists "", "". simpl. symmetry. apply string_app_nil_r.
    + exists "", (sep ++ String.concat sep (z :: l)). reflexivity.
  - destruct l as [|z l]; [contradiction|].
    destruct (IH Hin) as (a & b & E).
    change (String.concat sep (y :: z :: l))
      with (y ++ sep ++ String.concat sep (z :: l)).
    rewrite E. exists (y ++ sep ++ a), b.
    rewrite !string_app_assoc. reflexivity.
Qed.

(** X20: No item is lost: every item of the list occurs in the result. *)
Theorem comma_sep_mentions_items (items : list string) (x : string) :
  In x items ->
  exists a b, get_comma_sep_string_from_list items = a ++ x ++ b.
Proof.
  intros Hin. unfold get_comma_sep_string_from_list.
  destruct (snoc_cases items) as [-> | (l & y & ->)]; [contradiction|].
  rewrite truthy_snoc, removelast_last, last_last, length_app. simpl negb.
  cbv iota. simpl length.
  destruct l as [|z l].
  - simpl. destruct Hin as [-> | []].
    exists "", "". simpl. symmetry. apply string_app_nil_r.
  - replace (length (z :: l) + 1 =? 1)%nat with false
      by (symmetry; apply Nat.eqb_neq; simpl; lia).
    apply in_app_or in Hin as [Hin | [-> | []]].
    + destruct (concat_mentions ", " x (z :: l) Hin) as (a & b & E).
      rewrite E. exists a, (b ++ " and " ++ y).
      rewrite !string_app_assoc. reflexivity.
    + exists (String.concat ", " (z :: l) ++ " and "), "".
      rewrite string_app_nil_r, string_app_assoc. reflexivity.
Qed.

Lemma comma_sep_mentions_items_witness :
  exists a b,
    get_comma_sep_string_from_list ["red"; "green"; "blue"]
    = a ++ "green" ++ b.
Proof.
  apply (comma_sep_mentions_items ["red"; "green"; "blue"] "green").
  simpl. auto.
Defined.
